(** * dev-events: the data layer

    A shallow embedding of the two modules of the repository's data layer,

    - [lib/mongodb.ts]: the cached connection helper [connectDB], and
    - the Booking model: the [BookingSchema] with its email path and its
      [pre('save')] hook,

    together with the part of the JavaScript run time (strings as UTF-16
    code units, regular expressions, promises and the microtask queue) and
    of Mongoose (setters, validation, save middleware and the model
    registry) that the two modules rely on, and with the [addr-spec]
    grammar of RFC 5322, which the email pattern is compared with. *)

From stdpp Require Import gmap strings list fin_maps.
From Stdlib Require Import NArith Lia.

Local Open Scope string_scope.
Local Open Scope list_scope.

(** ** Errors and completions

    The error values the two modules throw or pass on: [new Error(message)],
    Mongoose's [ValidationError] with its message per path, and Mongoose's
    [DocumentNotFoundError].  A JavaScript computation either completes
    normally with a value or throws; an asynchronous function delivers the
    same two outcomes through the promise it returns. *)

Inductive Error :=
| PlainError (message : string)
| ValidationError (errors : list (string * string))
| DocumentNotFoundError.

Inductive Completion (A : Type) : Type :=
| Normal (a : A)
| Throw (e : Error).
Arguments Normal {A} a.
Arguments Throw {A} e.

(** * lib/mongodb.ts *)

Module Mongodb.

(** ** Data *)

(** Connection objects and promises are identified by numbers. *)
Definition Connection := nat.
Definition PromiseId := nat.
Definition CallId := nat.
Definition loc := nat.

(** The value [mongoose.connect] resolves to; the source reads its
    [connection] property. *)
Record MongooseInstance := { connection : Connection }.

Record ConnectOptions := { bufferCommands : bool }.

(** The object [{ conn, promise }] declared for [global.mongoose]. *)
Record Cache := { conn : option Connection; promise : option PromiseId }.

#[export] Instance Cache_inhabited : Inhabited Cache :=
  populate {| conn := None; promise := None |}.

(** What evaluating the module leaves in scope: the constant [MONGODB_URI]
    and the variable [cached], a reference to a cache object. *)
Record MongodbModule := { MONGODB_URI : string; cached : loc }.

(** How the promise returned by [mongoose.connect] settles, and how the
    promise derived from it by [.then(...)] settles. *)
Inductive ConnectOutcome :=
| Connected (mongooseInstance : MongooseInstance)
| Failed (e : Error).

Inductive Settlement :=
| Fulfilled (c : Connection)
| Rejected (e : Error).

(** A reaction registered by [await]: the rest of one [connectDB] call. *)
Definition Reaction : Type := MongodbModule * CallId.

(** One invocation of [mongoose.connect(...).then(...)].  While
    [Connecting] the driver has not answered.  [Settling] is the moment
    between the driver's answer and the run of the [.then] callback: the
    promise stored in [cached.promise] is still pending.  [Settled] is that
    promise fulfilled or rejected. *)
Inductive AttemptStatus :=
| Connecting (reactions : list Reaction)
| Settling (o : ConnectOutcome) (reactions : list Reaction)
| Settled (s : Settlement).

Record Attempt := {
  uri : string;
  opts : ConnectOptions;
  status : AttemptStatus
}.

(** Application code, as far as the cache can tell: it calls [connectDB]
    of some evaluation of the module, and it queues further jobs. *)
Inductive Script :=
| SEnd
| SCall (m : MongodbModule) (k : Script)
| SQueue (j : Script) (k : Script).

(** The jobs of the microtask queue. *)
Inductive Job :=
| JThen (p : PromiseId)
| JResume (m : MongodbModule) (t : CallId) (s : Settlement)
| JApp (s : Script).

(** The process: the heap of cache objects, the global [mongoose] slot, the
    connect attempts made so far (a promise is named by the position of its
    attempt), the microtask queue, and the outcome of every finished
    [connectDB] call. *)
Record Process := {
  objects : gmap loc Cache;
  global_mongoose : option loc;
  attempts : list Attempt;
  microtasks : list Job;
  calls : nat;
  outcomes : gmap CallId (Completion (option Connection))
}.

Definition boot : Process :=
  {| objects := ∅; global_mongoose := None; attempts := [];
     microtasks := []; calls := 0; outcomes := ∅ |}.

(** Field updates. *)
Definition set_objects (f : gmap loc Cache → gmap loc Cache) (w : Process) : Process :=
  {| objects := f (objects w); global_mongoose := global_mongoose w;
     attempts := attempts w; microtasks := microtasks w;
     calls := calls w; outcomes := outcomes w |}.

Definition set_global (g : option loc) (w : Process) : Process :=
  {| objects := objects w; global_mongoose := g;
     attempts := attempts w; microtasks := microtasks w;
     calls := calls w; outcomes := outcomes w |}.

Definition set_attempts (f : list Attempt → list Attempt) (w : Process) : Process :=
  {| objects := objects w; global_mongoose := global_mongoose w;
     attempts := f (attempts w); microtasks := microtasks w;
     calls := calls w; outcomes := outcomes w |}.

Definition set_microtasks (f : list Job → list Job) (w : Process) : Process :=
  {| objects := objects w; global_mongoose := global_mongoose w;
     attempts := attempts w; microtasks := f (microtasks w);
     calls := calls w; outcomes := outcomes w |}.

Definition set_calls (n : nat) (w : Process) : Process :=
  {| objects := objects w; global_mongoose := global_mongoose w;
     attempts := attempts w; microtasks := microtasks w;
     calls := n; outcomes := outcomes w |}.

Definition set_outcomes
    (f : gmap CallId (Completion (option Connection)) →
         gmap CallId (Completion (option Connection))) (w : Process) : Process :=
  {| objects := objects w; global_mongoose := global_mongoose w;
     attempts := attempts w; microtasks := microtasks w;
     calls := calls w; outcomes := f (outcomes w) |}.

Definition set_status (s : AttemptStatus) (a : Attempt) : Attempt :=
  {| uri := uri a; opts := opts a; status := s |}.

Definition set_conn (c : option Connection) (o : Cache) : Cache :=
  {| conn := c; promise := promise o |}.

Definition set_promise (p : option PromiseId) (o : Cache) : Cache :=
  {| conn := conn o; promise := p |}.

(** ** Evaluating the module (lines 1-34) *)

(** [process.env]: a variable is absent or holds a string. *)
Definition Env := gmap string string.

(** [!v] for [v : string | undefined]: [undefined] and the empty string are
    falsy. *)
Definition falsy (v : option string) : bool :=
  match v with
  | None => true
  | Some s => bool_decide (s = "")
  end.

Definition missing_uri_message : string :=
  "Please define the MONGODB_URI environment variable inside .env.local".

(** The outcome of one evaluation: the completion, the names looked up in
    [process.env] in order, and the process afterwards. *)
Record Evaluation := {
  completion : Completion MongodbModule;
  env_reads : list string;
  after : Process
}.

Definition evaluate (env : Env) (w : Process) : Evaluation :=
  (* const MONGODB_URI = process.env.MONGODB_URI; *)
  let v := env !! "MONGODB_URI" in
  let reads := ["MONGODB_URI"] in
  (* if (!MONGODB_URI) throw new Error(...) *)
  if falsy v then
    {| completion := Throw (PlainError missing_uri_message); env_reads := reads; after := w |}
  else
    (* let cached = global.mongoose;
       if (!cached) cached = global.mongoose = { conn: null, promise: null }; *)
    let u := default "" v in (* MONGODB_URI as string *)
    match global_mongoose w with
    | Some l =>
        {| completion := Normal {| MONGODB_URI := u; cached := l |};
           env_reads := reads; after := w |}
    | None =>
        let l := fresh (dom (objects w)) in
        {| completion := Normal {| MONGODB_URI := u; cached := l |};
           env_reads := reads;
           after := set_global (Some l)
                      (set_objects (insert l {| conn := None; promise := None |}) w) |}
    end.

(** ** connectDB (lines 47-75) *)

(** The object behind the variable [cached]. *)
Definition read_cached (m : MongodbModule) (w : Process) : Cache :=
  objects w !!! cached m.

Definition write_cached (m : MongodbModule) (f : Cache → Cache) (w : Process) : Process :=
  set_objects (λ h, <[cached m := f (h !!! cached m)]> h) w.

Definition enqueue (j : Job) (w : Process) : Process :=
  set_microtasks (λ q, q ++ [j]) w.

(** The promise of call [t] settles. *)
Definition finish (t : CallId) (r : Completion (option Connection)) (w : Process) : Process :=
  set_outcomes (insert t r) w.

(** How a call leaves its synchronous part: it has returned, or it is
    suspended on a promise. *)
Inductive CallStatus :=
| Returned (v : option Connection)
| Suspended (p : PromiseId).

(** [mongoose.connect(MONGODB_URI, opts).then(...)]: a new attempt, whose
    promise is named by its position. *)
Definition mongoose_connect (u : string) (o : ConnectOptions) (w : Process)
    : PromiseId * Process :=
  (length (attempts w),
   set_attempts (λ l, l ++ [{| uri := u; opts := o; status := Connecting [] |}]) w).

(** [await p] in call [t] of module [m]: a pending promise records the
    reaction; a settled one queues the continuation at once.  (A promise
    always names an attempt; the last case is there to make the function
    total.) *)
Definition await (m : MongodbModule) (t : CallId) (p : PromiseId) (w : Process) : Process :=
  match attempts w !! p with
  | Some a =>
      match status a with
      | Connecting rs =>
          set_attempts (λ l, <[p := set_status (Connecting (rs ++ [(m, t)])) a]> l) w
      | Settling o rs =>
          set_attempts (λ l, <[p := set_status (Settling o (rs ++ [(m, t)])) a]> l) w
      | Settled s => enqueue (JResume m t s) w
      end
  | None => w
  end.

(** The call up to its first suspension. *)
Definition connectDB (m : MongodbModule) (w : Process) : CallStatus * Process :=
  let t := calls w in
  let w := set_calls (S t) w in
  (* if (cached.conn) return cached.conn; *)
  match conn (read_cached m w) with
  | Some c => (Returned (Some c), finish t (Normal (Some c)) w)
  | None =>
      (* if (!cached.promise) cached.promise = mongoose.connect(...).then(...) *)
      let '(p, w) :=
        match promise (read_cached m w) with
        | Some p => (p, w)
        | None =>
            let '(p, w) :=
              mongoose_connect (MONGODB_URI m) {| bufferCommands := false |} w in
            (p, write_cached m (set_promise (Some p)) w)
        end in
      (* cached.conn = await cached.promise; *)
      (Suspended p, await m t p w)
  end.

(** The call after the awaited promise settled (lines 65-74). *)
Definition resume (m : MongodbModule) (t : CallId) (s : Settlement) (w : Process) : Process :=
  match s with
  | Fulfilled c =>
      (* cached.conn = <value>; return cached.conn; *)
      let w := write_cached m (set_conn (Some c)) w in
      finish t (Normal (conn (read_cached m w))) w
  | Rejected e =>
      (* cached.promise = null; throw error; *)
      let w := write_cached m (set_promise None) w in
      finish t (Throw e) w
  end.

(** ** The microtask queue *)

(** The callback given to [.then]: [mongooseInstance => mongooseInstance.connection].
    A rejection passes through. *)
Definition then_connection (o : ConnectOutcome) : Settlement :=
  match o with
  | Connected mongooseInstance => Fulfilled (connection mongooseInstance)
  | Failed e => Rejected e
  end.

(** The [.then] job of attempt [p]: the cached promise settles, and the
    reactions are queued in the order they were registered. *)
Definition run_then (p : PromiseId) (w : Process) : Process :=
  match attempts w !! p with
  | Some a =>
      match status a with
      | Settling o rs =>
          let s := then_connection o in
          set_microtasks (λ q, q ++ map (λ r : Reaction, JResume r.1 r.2 s) rs)
            (set_attempts (λ l, <[p := set_status (Settled s) a]> l) w)
      | _ => w
      end
  | None => w
  end.

Fixpoint run_script (s : Script) (w : Process) : Process :=
  match s with
  | SEnd => w
  | SCall m k => run_script k (connectDB m w).2
  | SQueue j k => run_script k (enqueue (JApp j) w)
  end.

Definition run_job (j : Job) (w : Process) : Process :=
  match j with
  | JThen p => run_then p w
  | JResume m t s => resume m t s w
  | JApp s => run_script s w
  end.

(** What can happen next.  [Answer p o]: the driver settles the promise of
    attempt [p], which queues the [.then] job.  [Schedule s]: code outside
    this module queues an application job.  [Tick]: the oldest job runs to
    completion. *)
Inductive Event :=
| Answer (p : PromiseId) (o : ConnectOutcome)
| Schedule (s : Script)
| Tick.

Definition step (w : Process) (ev : Event) : Process :=
  match ev with
  | Answer p o =>
      match attempts w !! p with
      | Some a =>
          match status a with
          | Connecting rs =>
              enqueue (JThen p)
                (set_attempts (λ l, <[p := set_status (Settling o rs) a]> l) w)
          | _ => w
          end
      | None => w
      end
  | Schedule s => enqueue (JApp s) w
  | Tick =>
      match microtasks w with
      | [] => w
      | j :: q => run_job j (set_microtasks (λ _, q) w)
      end
  end.

Definition run (w : Process) (evs : list Event) : Process :=
  fold_left step evs w.

(** The attempts the driver has not answered yet. *)
Definition is_connecting (a : Attempt) : bool :=
  match status a with
  | Connecting _ => true
  | _ => false
  end.

Definition outstanding (w : Process) : nat :=
  length (filter (λ a, is_connecting a = true) (attempts w)).

End Mongodb.

(** * JavaScript strings and regular expressions *)

Module JS.

(** A string is a sequence of UTF-16 code units. *)
Abbreviation jsstring := (list N).

(** The code units of an ASCII literal. *)
Definition lit (s : string) : jsstring :=
  map Ascii.N_of_ascii (String.list_ascii_of_string s).

Definition at_sign : N := 64.
Definition full_stop : N := 46.

(** [WhiteSpace] and [LineTerminator] of ECMAScript: what [\s] matches and
    what [String.prototype.trim] removes. *)
Definition is_white_space (c : N) : bool :=
  existsb (N.eqb c)
    [9; 10; 11; 12; 13; 32; 160; 5760; 8232; 8233; 8239; 8287; 12288; 65279]%N
  || ((8192 <=? c)%N && (c <=? 8202)%N).

Fixpoint trimStart (s : jsstring) : jsstring :=
  match s with
  | [] => []
  | c :: r => if is_white_space c then trimStart r else s
  end.

Definition trimEnd (s : jsstring) : jsstring := rev (trimStart (rev s)).

Definition trim (s : jsstring) : jsstring := trimEnd (trimStart s).

(** [toLowerCase] on the code units of Basic Latin. *)
Definition ascii_lower (c : N) : N :=
  if ((65 <=? c)%N && (c <=? 90)%N) then (c + 32)%N else c.

Definition is_ascii (s : jsstring) : Prop := Forall (λ c, (c < 128)%N) s.

(** Regular expressions over code units: the constructs the source's
    pattern needs, and a few more to close them under derivatives. *)
Inductive regex :=
| Void
| Eps
| Class (f : N → bool)
| Seq (r1 r2 : regex)
| Alt (r1 r2 : regex)
| Star (r : regex).

Definition Char (c : N) : regex := Class (N.eqb c).
Definition Plus (r : regex) : regex := Seq r (Star r).

Fixpoint nullable (r : regex) : bool :=
  match r with
  | Void => false
  | Eps => true
  | Class _ => false
  | Seq r1 r2 => nullable r1 && nullable r2
  | Alt r1 r2 => nullable r1 || nullable r2
  | Star _ => true
  end.

Fixpoint deriv (c : N) (r : regex) : regex :=
  match r with
  | Void => Void
  | Eps => Void
  | Class f => if f c then Eps else Void
  | Seq r1 r2 =>
      if nullable r1 then Alt (Seq (deriv c r1) r2) (deriv c r2)
      else Seq (deriv c r1) r2
  | Alt r1 r2 => Alt (deriv c r1) (deriv c r2)
  | Star r1 => Seq (deriv c r1) (Star r1)
  end.

(** Does the whole of [s] match [r]? *)
Fixpoint matches (r : regex) (s : jsstring) : bool :=
  match s with
  | [] => nullable r
  | c :: s' => matches (deriv c r) s'
  end.

(** [/^r$/.test(s)]: without flags, [^] and [$] are the two ends of the
    string, so the test succeeds exactly when the whole string matches. *)
Definition test_anchored (r : regex) (s : jsstring) : bool := matches r s.


End JS.

(** * The Booking model *)

Module BookingModel.
Import JS.

(** ** Data *)

(** An [ObjectId] is identified with the 24 hexadecimal digits that its
    [toString()] gives; a [Date] with its time value. *)
Definition ObjectId := string.
Definition Date := N.

(** The fields of [IBooking]; a field that was never set is [undefined]. *)
Record Fields := {
  eventId : option ObjectId;
  email : option jsstring;
  createdAt : option Date;
  updatedAt : option Date
}.

(** A Booking document in memory: its fields, and what Mongoose tracks
    about it ([isNew], the modified paths). *)
Record IBooking := {
  _id : ObjectId;
  fields : Fields;
  isNew : bool;
  modifiedPaths : list string
}.

Definition isModified (path : string) (doc : IBooking) : bool :=
  bool_decide (path ∈ modifiedPaths doc).

(** The database: the [_id]s of the Event collection and the records of
    the Booking collection. *)
Record Database := {
  events : gset ObjectId;
  bookings : gmap ObjectId Fields
}.

(** The operations sent to the database, in order. *)
Inductive DbOp :=
| FindEventById (id : option ObjectId)
| InsertBooking (id : ObjectId)
| UpdateBooking (id : ObjectId)
| FindBooking (id : ObjectId).

Record Store := { db : Database; log : list DbOp }.

(** ** Computations that use the database and may throw *)

Definition M (A : Type) : Type := Store → Completion A * Store.

Definition ret {A} (a : A) : M A := λ s, (Normal a, s).

Definition throw {A} (e : Error) : M A := λ s, (Throw e, s).

Definition bind {A B} (m : M A) (k : A → M B) : M B :=
  λ s, match m s with
       | (Normal a, s') => k a s'
       | (Throw e, s') => (Throw e, s')
       end.

Notation "'let!' x ':=' m 'in' k" := (bind m (λ x, k))
  (at level 10, x name, m at level 100, k at level 200).
Notation "'do!' m 'in' k" := (bind m (λ _, k))
  (at level 10, m at level 100, k at level 200).

Definition send (op : DbOp) : M unit :=
  λ s, (Normal tt, {| db := db s; log := log s ++ [op] |}).

Definition get_db : M Database := λ s, (Normal (db s), s).

Definition put_bookings (b : gmap ObjectId Fields) : M unit :=
  λ s, (Normal tt, {| db := {| events := events (db s); bookings := b |}; log := log s |}).

(** [Event.findById(id)]: the document, or [null]. *)
Definition Event_findById (id : option ObjectId) : M (option ObjectId) :=
  do! send (FindEventById id) in
  let! d := get_db in
  ret (match id with
       | Some i => if decide (i ∈ events d) then Some i else None
       | None => None
       end).

(** ** Schemas *)

(** The options of a path, in the order the schema writes them. *)
Inductive PathOption :=
| opt_ref (model : string)
| opt_required (message : string)
| opt_trim (b : bool)
| opt_lowercase (b : bool)
| opt_validate (validator : jsstring → bool) (message : string).

Record Schema := {
  eventId_path : list PathOption;
  email_path : list PathOption;
  timestamps : bool;
  pre_save : list (IBooking → M unit);
  indexes : list (string * nat)
}.

(** ** The source: the schema, its hook, its index *)

(** [/^[^\s@]+@[^\s@]+\.[^\s@]+$/] *)
Definition not_space_or_at : regex :=
  Class (λ c, negb (is_white_space c || N.eqb c at_sign)).

Definition email_pattern : regex :=
  Seq (Plus not_space_or_at)
    (Seq (Char at_sign)
       (Seq (Plus not_space_or_at)
          (Seq (Char full_stop) (Plus not_space_or_at)))).

Definition validator (v : jsstring) : bool := test_anchored email_pattern v.

(** The template literal [`Event with ID ${this.eventId} does not exist`]. *)
Definition event_missing_message (id : option ObjectId) : string :=
  "Event with ID " +:+ default "undefined" id +:+ " does not exist".

(** The hook given to [BookingSchema.pre('save', ...)].  The Event model is
    taken from [mongoose.models] or imported on demand; either way it is
    the Event collection that answers. *)
Definition pre_save_hook (this : IBooking) : M unit :=
  if isNew this || isModified "eventId" this then
    let! eventExists := Event_findById (eventId (fields this)) in
    match eventExists with
    | Some _ => ret tt
    | None => throw (PlainError (event_missing_message (eventId (fields this))))
    end
  else ret tt.

Definition BookingSchema : Schema :=
  {| eventId_path := [opt_ref "Event"; opt_required "Event ID is required"];
     email_path :=
       [opt_required "Email is required"; opt_trim true; opt_lowercase true;
        opt_validate validator "Please provide a valid email address"];
     timestamps := true;
     pre_save := [pre_save_hook];
     indexes := [("eventId", 1)] |}.

(** ** Mongoose: setters, validation, timestamps, [save] *)

(** Validation.  [required] puts its validator in front of the others.  On
    a string path it rejects [undefined] and the empty string; the other
    validators are not run on [undefined].  The first validator that fails
    gives the path its message. *)
Fixpoint required_message (opts : list PathOption) : option string :=
  match opts with
  | [] => None
  | opt_required m :: _ => Some m
  | _ :: rest => required_message rest
  end.

Definition custom_validators (opts : list PathOption)
    : list ((jsstring → bool) * string) :=
  flat_map (λ o, match o with opt_validate f m => [(f, m)] | _ => [] end) opts.

Fixpoint first_failure (vs : list ((jsstring → bool) * string)) (v : jsstring)
    : option string :=
  match vs with
  | [] => None
  | (f, m) :: rest => if f v then first_failure rest v else Some m
  end.

Definition validate_string (opts : list PathOption) (v : option jsstring)
    : option string :=
  match v with
  | None => required_message opts
  | Some s =>
      match required_message opts, s with
      | Some m, [] => Some m
      | _, _ => first_failure (custom_validators opts) s
      end
  end.

Definition validate_objectid (opts : list PathOption) (v : option ObjectId)
    : option string :=
  match v with
  | None => required_message opts
  | Some _ => None
  end.

(** The messages of the paths that fail, by path. *)
Definition validate (S : Schema) (doc : IBooking) : list (string * string) :=
  match validate_objectid (eventId_path S) (eventId (fields doc)) with
  | Some m => [("eventId", m)] | None => []
  end ++
  match validate_string (email_path S) (email (fields doc)) with
  | Some m => [("email", m)] | None => []
  end.

(** Timestamps: a new document gets [createdAt] unless it has one, and
    [updatedAt] equal to it; a modified one gets a new [updatedAt]. *)
Definition mark (path : string) (paths : list string) : list string :=
  if decide (path ∈ paths) then paths else paths ++ [path].

Definition stamp (now : Date) (doc : IBooking) : IBooking :=
  let f := fields doc in
  if isNew doc then
    let c := default now (createdAt f) in
    {| _id := _id doc;
       fields := {| eventId := eventId f; email := email f;
                    createdAt := Some c; updatedAt := Some c |};
       isNew := true;
       modifiedPaths := mark "updatedAt" (mark "createdAt" (modifiedPaths doc)) |}
  else
    match modifiedPaths doc with
    | [] => doc
    | _ :: _ =>
        {| _id := _id doc;
           fields := {| eventId := eventId f; email := email f;
                        createdAt := createdAt f; updatedAt := Some now |};
           isNew := false;
           modifiedPaths := mark "updatedAt" (modifiedPaths doc) |}
    end.

Fixpoint run_hooks (hs : list (IBooking → M unit)) (doc : IBooking) : M unit :=
  match hs with
  | [] => ret tt
  | h :: hs' => do! h doc in run_hooks hs' doc
  end.

(** The write.  A new document is inserted.  A stored one gets the [$set]
    of its modified paths; with nothing modified Mongoose only checks that
    the record is still there.  A stored document without its record is a
    [DocumentNotFoundError]. *)
Definition overwrite (paths : list string) (f stored : Fields) : Fields :=
  {| eventId := if decide ("eventId" ∈ paths) then eventId f else eventId stored;
     email := if decide ("email" ∈ paths) then email f else email stored;
     createdAt := if decide ("createdAt" ∈ paths) then createdAt f else createdAt stored;
     updatedAt := if decide ("updatedAt" ∈ paths) then updatedAt f else updatedAt stored |}.

Definition saved (doc : IBooking) : IBooking :=
  {| _id := _id doc; fields := fields doc; isNew := false; modifiedPaths := [] |}.

Definition duplicate_key_message : string := "E11000 duplicate key error".

Definition write (doc : IBooking) : M IBooking :=
  if isNew doc then
    do! send (InsertBooking (_id doc)) in
    let! d := get_db in
    match bookings d !! _id doc with
    | Some _ => throw (PlainError duplicate_key_message)
    | None =>
        do! put_bookings (<[_id doc := fields doc]> (bookings d)) in
        ret (saved doc)
    end
  else
    match modifiedPaths doc with
    | [] =>
        do! send (FindBooking (_id doc)) in
        let! d := get_db in
        match bookings d !! _id doc with
        | None => throw DocumentNotFoundError
        | Some _ => ret (saved doc)
        end
    | _ :: _ =>
        do! send (UpdateBooking (_id doc)) in
        let! d := get_db in
        match bookings d !! _id doc with
        | None => throw DocumentNotFoundError
        | Some stored =>
            do! put_bookings
                  (<[_id doc := overwrite (modifiedPaths doc) (fields doc) stored]>
                     (bookings d)) in
            ret (saved doc)
        end
    end.

(** [doc.save()]: validation comes first, then the timestamps of the
    schema option, then the hooks of [pre('save')] in the order they were
    added, then the write. *)
Definition save (S : Schema) (now : Date) (doc : IBooking) : M IBooking :=
  match validate S doc with
  | (_ :: _) as errors => throw (ValidationError errors)
  | [] =>
      let doc := if timestamps S then stamp now doc else doc in
      do! run_hooks (pre_save S) doc in
      write doc
  end.

(** A document read back from the database. *)
Definition hydrate (id : ObjectId) (f : Fields) : IBooking :=
  {| _id := id; fields := f; isNew := false; modifiedPaths := [] |}.

(** Setters run when a value is assigned, the setter of the option written
    last first; [trim] and [lowercase] are setters. *)
Section Setters.

(** [String.prototype.toLowerCase] of the engine. *)
Variable toLowerCase : jsstring → jsstring.

Definition setters (opts : list PathOption) : list (jsstring → jsstring) :=
  flat_map (λ o, match o with
                 | opt_trim true => [trim]
                 | opt_lowercase true => [toLowerCase]
                 | _ => []
                 end) opts.

Definition applySetters (opts : list PathOption) (v : jsstring) : jsstring :=
  fold_right (λ f x, f x) v (setters opts).

(** [new Booking({ eventId, email })] with the [_id] it is given. *)
Definition Booking_new (S : Schema) (id : ObjectId)
    (e : option ObjectId) (mail : option jsstring) : IBooking :=
  {| _id := id;
     fields := {| eventId := e; email := applySetters (email_path S) <$> mail;
                  createdAt := None; updatedAt := None |};
     isNew := true;
     modifiedPaths :=
       match e with Some _ => ["eventId"] | None => [] end ++
       match mail with Some _ => ["email"] | None => [] end |}.

(** [doc.email = v]: a value equal to the present one modifies nothing. *)
Definition assign_email (S : Schema) (v : jsstring) (doc : IBooking) : IBooking :=
  let v' := applySetters (email_path S) v in
  let f := fields doc in
  if decide (email f = Some v') then doc
  else {| _id := _id doc;
          fields := {| eventId := eventId f; email := Some v';
                       createdAt := createdAt f; updatedAt := updatedAt f |};
          isNew := isNew doc;
          modifiedPaths := mark "email" (modifiedPaths doc) |}.

End Setters.

(** [doc.eventId = e] *)
Definition assign_eventId (e : ObjectId) (doc : IBooking) : IBooking :=
  let f := fields doc in
  if decide (eventId f = Some e) then doc
  else {| _id := _id doc;
          fields := {| eventId := Some e; email := email f;
                       createdAt := createdAt f; updatedAt := updatedAt f |};
          isNew := isNew doc;
          modifiedPaths := mark "eventId" (modifiedPaths doc) |}.

(** ** Evaluating the module: Schema objects and the model registry *)

(** What [new Schema(...)] returns: an object with the definition it was
    given.  Mongoose compares Schema objects by identity. *)
Record SchemaObject := { identity : nat; definition : Schema }.

Record Model := { modelName : string; schema : SchemaObject; serial : nat }.

(** The Mongoose instance the module imports: [mongoose.models], the number
    of models compiled so far, and the number of Schema objects created so
    far. *)
Record Registry := { models : gmap string Model; compiled : nat; schemas : nat }.

(** [new Schema(...)]: a new object every time. *)
Definition new_Schema (S : Schema) (g : Registry) : SchemaObject * Registry :=
  ({| identity := schemas g; definition := S |},
   {| models := models g; compiled := compiled g;
      schemas := Datatypes.S (schemas g) |}).

Definition overwrite_model_message (name : string) : string :=
  "Cannot overwrite `" +:+ name +:+ "` model once compiled.".

(** [model(name, schema)]: a free name gets a model, compiled and
    registered.  A name that is taken gives the registered model when
    [schema] is the very Schema object of that model, and is an
    [OverwriteModelError] when it is another one. *)
Definition model (name : string) (S : SchemaObject) (g : Registry)
    : Completion Model * Registry :=
  match models g !! name with
  | Some M =>
      if decide (identity S = identity (schema M)) then (Normal M, g)
      else (Throw (PlainError (overwrite_model_message name)), g)
  | None =>
      let M := {| modelName := name; schema := S; serial := compiled g |} in
      (Normal M, {| models := <[name := M]> (models g);
                    compiled := Datatypes.S (compiled g);
                    schemas := schemas g |})
  end.

(** The module, evaluated (lines 91-140): the Schema object is created,
    then
    [const Booking = models.Booking || model<IBooking>('Booking', BookingSchema)]. *)
Definition Booking (g : Registry) : Completion Model * Registry :=
  let '(schemaObject, g) := new_Schema BookingSchema g in
  match models g !! "Booking" with
  | Some M => (Normal M, g)
  | None => model "Booking" schemaObject g
  end.

End BookingModel.

(** * Vocabulary of the statements *)

Import Mongodb.

(** [n] calls of [connectDB] one after the other, with what each returned. *)
Fixpoint repeat_connectDB (n : nat) (m : MongodbModule) (w : Process)
    : list CallStatus * Process :=
  match n with
  | 0 => ([], w)
  | S k =>
      let r := connectDB m w in
      let rs := repeat_connectDB k m r.2 in
      (r.1 :: rs.1, rs.2)
  end.

(** A process whose environment defines the URI, and the module it gets. *)
Definition sample_uri : string := "mongodb://localhost:27017/dev-events".
Definition sample_env : Env := {[ "MONGODB_URI" := sample_uri ]}.
Definition sample_process : Process := after (evaluate sample_env boot).
Definition sample_module : MongodbModule :=
  {| MONGODB_URI := sample_uri; cached := 0 |}.

(** The cache object at [l] holds a connection. *)
Definition holds_connection (l : loc) (w : Process) : Prop :=
  is_Some (conn (objects w !!! l)).

(** Runs in which the driver never fails and every call goes through an
    evaluation of the module whose [cached] is the object at [l]. *)
Fixpoint script_uses (l : loc) (k : Script) : Prop :=
  match k with
  | SEnd => True
  | SCall m k' => cached m = l ∧ script_uses l k'
  | SQueue j k' => script_uses l j ∧ script_uses l k'
  end.

Definition event_without_failure (l : loc) (ev : Event) : Prop :=
  match ev with
  | Answer _ (Connected _) => True
  | Answer _ (Failed _) => False
  | Schedule k => script_uses l k
  | Tick => True
  end.

Definition job_without_failure (l : loc) (j : Job) : Prop :=
  match j with
  | JThen _ => True
  | JResume m _ s => cached m = l ∧ ∃ c, s = Fulfilled c
  | JApp k => script_uses l k
  end.

Definition attempt_without_failure (l : loc) (a : Attempt) : Prop :=
  match status a with
  | Connecting rs => Forall (λ r : Reaction, cached r.1 = l) rs
  | Settling o rs =>
      (∃ i, o = Connected i) ∧ Forall (λ r : Reaction, cached r.1 = l) rs
  | Settled s => ∃ c, s = Fulfilled c
  end.

(** What such runs maintain: no rejection is on its way, every waiter
    belongs to the cache at [l], and there is an attempt exactly when the
    cache holds its promise. *)
Definition single_flight (l : loc) (w : Process) : Prop :=
  Forall (job_without_failure l) (microtasks w) ∧
  Forall (attempt_without_failure l) (attempts w) ∧
  match promise (objects w !!! l) with
  | None => attempts w = []
  | Some _ => length (attempts w) = 1
  end.

Definition call_once : Script := SCall sample_module SEnd.

(** Two calls before the first attempt is answered, then a successful
    answer, and the three jobs it leads to. *)
Definition two_callers (i : MongooseInstance) : list Event :=
  [Schedule (SCall sample_module (SCall sample_module SEnd)); Tick;
   Answer 0 (Connected i); Tick; Tick; Tick].

(** A failed attempt with a late caller.  The first call starts attempt 0,
    which the driver fails.  A job that runs after the cached promise is
    rejected, and before the first call resumes, queues another call and
    itself calls [connectDB]: it finds the rejected promise still cached and
    awaits it.  The first call resumes and clears the promise; the queued
    call starts attempt 1; the late caller resumes and clears the promise
    again.  A last call then starts attempt 2. *)
Definition late_caller : list Event :=
  [Schedule call_once; Tick;
   Answer 0 (Failed (PlainError "connect ECONNREFUSED"));
   Schedule (SQueue call_once call_once);
   Tick; Tick; Tick; Tick; Tick;
   Schedule call_once; Tick].

(** The run [late_caller] continued, with attempts 1 and 2 both in flight.
    Attempt 1 succeeds and attempt 2 fails; the call that awaited attempt 1
    resumes first and caches the connection, then the call that awaited
    attempt 2 resumes. *)
Definition late_caller_then_failure : list Event :=
  late_caller ++
  [Answer 1 (Connected {| connection := 7 |});
   Answer 2 (Failed (PlainError "connect ETIMEDOUT"));
   Tick; Tick; Tick; Tick].


Import JS BookingModel.







(** * RFC 5322: the addr-spec *)

(** The grammar of section 3.4.1 of RFC 5322 with the rules it rests on
    (sections 3.2.1 to 3.2.5, the obsolete forms of section 4, and the core
    rules of RFC 5234), as languages over code units: a code unit below 128
    stands for the US-ASCII character of that number. *)
Module RFC5322.













(** [comment = "(" *([FWS] ccontent) [FWS] ")"] with
    [ccontent = ctext / quoted-pair / comment]. *)
#[local] Unset Elimination Schemes.
#[local] Set Elimination Schemes.















End RFC5322.




(** The Event lookups among the operations sent to the database. *)
Definition lookups (ops : list DbOp) : list (option ObjectId) :=
  flat_map (λ op, match op with FindEventById i => [i] | _ => [] end) ops.

(** Does validation let the document through? *)
Definition passes (S : Schema) (doc : IBooking) : bool :=
  match validate S doc with [] => true | _ :: _ => false end.

(** An engine whose [toLowerCase] is the Basic Latin one on every string. *)
Definition ascii_toLowerCase (s : jsstring) : jsstring := map ascii_lower s.

(** Sample data: an Event, the databases with and without it, a stored
    Booking that refers to it. *)
Definition E1 : ObjectId := "652f1c0e8b3a4d1f9c0a7b11".
Definition B1 : ObjectId := "652f1c0e8b3a4d1f9c0a7b12".

Definition stored_booking : Fields :=
  {| eventId := Some E1; email := Some (lit "user@example.com");
     createdAt := Some 1700000000000%N; updatedAt := Some 1700000000000%N |}.

Definition with_event : Store :=
  {| db := {| events := {[ E1 ]}; bookings := ∅ |}; log := [] |}.

Definition without_event : Store :=
  {| db := {| events := ∅; bookings := ∅ |}; log := [] |}.

Definition event_deleted : Store :=
  {| db := {| events := ∅; bookings := {[ B1 := stored_booking ]} |}; log := [] |}.

(** Every call that completed normally delivered a connection, not [null]. *)
Definition outcomes_non_null (w : Process) : Prop :=
  ∀ t v, outcomes w !! t = Some (Normal v) → is_Some v.

(** No call has thrown. *)
Definition no_rejection (w : Process) : Prop :=
  ∀ t e, outcomes w !! t ≠ Some (Throw e).

(** Runs in which every call goes through a module whose constant
    [MONGODB_URI] is [u]. *)
Fixpoint script_connects_to (u : string) (k : Script) : Prop :=
  match k with
  | SEnd => True
  | SCall m k' => MONGODB_URI m = u ∧ script_connects_to u k'
  | SQueue j k' => script_connects_to u j ∧ script_connects_to u k'
  end.

Definition event_connects_to (u : string) (ev : Event) : Prop :=
  match ev with
  | Schedule k => script_connects_to u k
  | _ => True
  end.

Definition job_connects_to (u : string) (j : Job) : Prop :=
  match j with
  | JApp k => script_connects_to u k
  | _ => True
  end.

(** An attempt made on [u] with buffering of commands disabled. *)
Definition attempt_to (u : string) (a : Attempt) : Prop :=
  uri a = u ∧ bufferCommands (opts a) = false.

(** Every stored Booking refers to an Event that exists. *)
Definition references_exist (d : Database) : Prop :=
  ∀ id f, bookings d !! id = Some f → ∃ e, eventId f = Some e ∧ e ∈ events d.

(** A record with an Event reference and an email the validator accepts. *)
Definition valid_record (f : Fields) : Prop :=
  is_Some (eventId f) ∧ ∃ v, email f = Some v ∧ validator v = true.

Definition records_valid (d : Database) : Prop :=
  ∀ id f, bookings d !! id = Some f → valid_record f.

(** A registry with nothing in it, and registries whose models were
    compiled from Schema objects created before. *)
Definition empty_registry : Registry :=
  {| models := ∅; compiled := 0; schemas := 0 |}.

Definition registry_wf (g : Registry) : Prop :=
  ∀ name M, models g !! name = Some M → identity (schema M) < schemas g.

(** The connection the driver has answered an attempt with, if it has, and
    the one the first attempt of the process has been answered with. *)
Definition answer_of (a : Attempt) : option Connection :=
  match status a with
  | Settling (Connected i) _ => Some (connection i)
  | Settled (Fulfilled c) => Some c
  | _ => None
  end.

Definition delivered (w : Process) : option Connection :=
  attempts w !! 0 ≫= answer_of.

(** A continuation that is about to resume with a connection resumes with
    [d]. *)
Definition job_delivers (d : option Connection) (j : Job) : Prop :=
  match j with
  | JResume _ _ (Fulfilled c) => d = Some c
  | _ => True
  end.

(** What runs without a failure maintain beside [single_flight]: the cache
    at [l], the calls that returned and the calls about to resume know of
    no connection but the one delivered by the first attempt. *)
Definition one_connection (l : loc) (w : Process) : Prop :=
  (∀ c, conn (objects w !!! l) = Some c → delivered w = Some c) ∧
  (∀ t v, outcomes w !! t = Some (Normal v) → is_Some v ∧ v = delivered w) ∧
  Forall (job_delivers (delivered w)) (microtasks w).

(** * lib/mongodb.ts: properties of [connectDB] *)

Section ConnectDB.

Implicit Types (m : MongodbModule) (w : Process) (c : Connection).

(** Counting calls and recording outcomes do not touch the cache. *)
Lemma read_cached_finish m t r w : read_cached m (finish t r w) = read_cached m w.
Proof. reflexivity. Qed.

Lemma read_cached_set_calls m n w : read_cached m (set_calls n w) = read_cached m w.
Proof. reflexivity. Qed.

Lemma read_cached_write m f w :
  read_cached m (write_cached m f w) = f (read_cached m w).
Proof.
  unfold read_cached, write_cached, set_objects. simpl.
  by rewrite lookup_total_insert_eq.
Qed.

(** Lines 49-51: with a connection cached the call returns it at once. *)
Lemma connectDB_cached m w c :
  conn (read_cached m w) = Some c →
  connectDB m w =
    (Returned (Some c), finish (calls w) (Normal (Some c)) (set_calls (S (calls w)) w)).
Proof.
  intros H. unfold connectDB.
  rewrite read_cached_set_calls, H. reflexivity.
Qed.

(** Lines 54-67 with a promise cached: the call awaits it and connects
    nothing. *)
Lemma connectDB_joins m w p :
  conn (read_cached m w) = None →
  promise (read_cached m w) = Some p →
  connectDB m w = (Suspended p, await m (calls w) p (set_calls (S (calls w)) w)).
Proof.
  intros Hc Hp. unfold connectDB.
  rewrite !read_cached_set_calls, Hc, Hp. reflexivity.
Qed.

Lemma await_length m t p w : length (attempts (await m t p w)) = length (attempts w).
Proof.
  unfold await. destruct (attempts w !! p) as [a|]; [|done].
  destruct (status a); simpl; by rewrite ?length_insert.
Qed.

Lemma connectDB_joins_no_connect m w p :
  conn (read_cached m w) = None →
  promise (read_cached m w) = Some p →
  (connectDB m w).1 = Suspended p ∧
  length (attempts (connectDB m w).2) = length (attempts w).
Proof.
  intros Hc Hp. rewrite (connectDB_joins m w p Hc Hp). simpl.
  by rewrite await_length.
Qed.

(** Lines 54-67 with nothing cached: one new attempt, which the call
    awaits. *)
Lemma connectDB_fresh m w :
  read_cached m w = {| conn := None; promise := None |} →
  let r := connectDB m w in
  r.1 = Suspended (length (attempts w)) ∧
  attempts r.2 =
    attempts w ++ [{| uri := MONGODB_URI m; opts := {| bufferCommands := false |};
                      status := Connecting [(m, calls w)] |}] ∧
  read_cached m r.2 = {| conn := None; promise := Some (length (attempts w)) |} ∧
  microtasks r.2 = microtasks w ∧
  calls r.2 = S (calls w) ∧
  outcomes r.2 = outcomes w.
Proof.
  intros H. unfold connectDB.
  rewrite !read_cached_set_calls, H. simpl.
  unfold await. simpl.
  rewrite lookup_app_r by lia. rewrite Nat.sub_diag. simpl.
  split; [done|]. split.
  - rewrite insert_app_r_alt by lia. by rewrite Nat.sub_diag.
  - split; [|done].
    unfold read_cached. simpl. rewrite lookup_total_insert_eq.
    fold (read_cached m w). by rewrite H.
Qed.

(** The failure path of lines 68-72. *)
Lemma resume_rejected m t e w :
  let w1 := resume m t (Rejected e) w in
  outcomes w1 !! t = Some (Throw e) ∧
  promise (read_cached m w1) = None ∧
  conn (read_cached m w1) = conn (read_cached m w) ∧
  attempts w1 = attempts w ∧
  microtasks w1 = microtasks w.
Proof.
  simpl. split; [apply lookup_insert_eq|].
  rewrite read_cached_finish, read_cached_write. done.
Qed.

(** The success path of lines 67 and 74. *)
Lemma resume_fulfilled m t c w :
  let w1 := resume m t (Fulfilled c) w in
  outcomes w1 !! t = Some (Normal (Some c)) ∧
  conn (read_cached m w1) = Some c ∧
  promise (read_cached m w1) = promise (read_cached m w) ∧
  attempts w1 = attempts w ∧
  microtasks w1 = microtasks w.
Proof.
  simpl. rewrite read_cached_finish, !read_cached_write. simpl.
  split; [apply lookup_insert_eq|done].
Qed.

Lemma repeat_connectDB_cached n : ∀ m w c,
  conn (read_cached m w) = Some c →
  let r := repeat_connectDB n m w in
  r.1 = replicate n (Returned (Some c)) ∧
  objects r.2 = objects w ∧
  global_mongoose r.2 = global_mongoose w ∧
  attempts r.2 = attempts w ∧
  microtasks r.2 = microtasks w ∧
  calls r.2 = calls w + n ∧
  (∀ i, i < calls w → outcomes r.2 !! i = outcomes w !! i) ∧
  (∀ i, calls w ≤ i < calls w + n → outcomes r.2 !! i = Some (Normal (Some c))).
Proof.
  induction n as [|n IH]; intros m w c H.
  - simpl. repeat split; first [done | lia | intros i Hi; lia].
  - cbn [repeat_connectDB]. rewrite (connectDB_cached m w c H). cbn [fst snd].
    set (w1 := finish (calls w) (Normal (Some c)) (set_calls (S (calls w)) w)).
    assert (H1 : conn (read_cached m w1) = Some c) by exact H.
    destruct (IH m w1 c H1) as (E1 & E2 & E3 & E4 & E5 & E6 & E7 & E8).
    cbn zeta in *.
    repeat split.
    + by rewrite E1.
    + by rewrite E2.
    + by rewrite E3.
    + by rewrite E4.
    + by rewrite E5.
    + rewrite E6. simpl. lia.
    + intros i Hi. rewrite E7 by (simpl; lia). simpl.
      rewrite lookup_insert_ne by lia. done.
    + intros i Hi. destruct (decide (i = calls w)) as [->|Hne].
      * rewrite E7 by (simpl; lia). simpl. apply lookup_insert_eq.
      * apply E8. simpl. lia.
Qed.

(** The last attempt of the list, read and replaced. *)
Lemma lookup_last_attempt (l : list Attempt) a n :
  n = length l → (l ++ [a]) !! n = Some a.
Proof. intros ->. by apply list_lookup_middle. Qed.

Lemma insert_last_attempt (l : list Attempt) a b n :
  n = length l → <[n := b]> (l ++ [a]) = l ++ [b].
Proof. intros ->. rewrite insert_app_r_alt by lia. by rewrite Nat.sub_diag. Qed.

Ltac run_attempt :=
  repeat first [ rewrite lookup_last_attempt by done
               | rewrite insert_last_attempt by done
               | progress simpl
               | progress unfold set_attempts, run_then ].

(** X1: two calls made before the first attempt is answered: one attempt
    is made, both calls await its promise, and when the driver answers, both
    get the same connection, or the same error. *)
Theorem two_calls_share_one_attempt m w (o : ConnectOutcome) :
  read_cached m w = {| conn := None; promise := None |} →
  microtasks w = [] →
  let p := length (attempts w) in
  let first := connectDB m w in
  let second := connectDB m first.2 in
  first.1 = Suspended p ∧ second.1 = Suspended p ∧
  length (attempts second.2) = S p ∧
  let w' := run second.2 [Answer p o; Tick; Tick; Tick] in
  length (attempts w') = S p ∧
  microtasks w' = [] ∧
  match o with
  | Connected i =>
      outcomes w' !! calls w = Some (Normal (Some (connection i))) ∧
      outcomes w' !! S (calls w) = Some (Normal (Some (connection i))) ∧
      read_cached m w' = {| conn := Some (connection i); promise := Some p |}
  | Failed e =>
      outcomes w' !! calls w = Some (Throw e) ∧
      outcomes w' !! S (calls w) = Some (Throw e) ∧
      read_cached m w' = {| conn := None; promise := None |}
  end.
Proof.
  intros Hc Hq. cbn zeta.
  set (p := length (attempts w)). set (t := calls w).
  set (a := λ st, {| uri := MONGODB_URI m; opts := {| bufferCommands := false |};
                     status := st |}).
  assert (W1 : connectDB m w =
    (Suspended p,
     {| objects := <[cached m := {| conn := None; promise := Some p |}]> (objects w);
        global_mongoose := global_mongoose w;
        attempts := attempts w ++ [a (Connecting [(m, t)])];
        microtasks := []; calls := S t; outcomes := outcomes w |})).
  { unfold connectDB. rewrite !read_cached_set_calls, Hc. simpl.
    unfold await. simpl. rewrite lookup_last_attempt by done. simpl.
    unfold set_attempts, set_objects. simpl.
    rewrite insert_last_attempt by done.
    fold (read_cached m w). rewrite Hc, Hq. reflexivity. }
  rewrite W1. cbn [fst snd].
  set (w1 := {| objects := _ |}) in *.
  assert (W2 : connectDB m w1 =
    (Suspended p,
     {| objects := objects w1; global_mongoose := global_mongoose w;
        attempts := attempts w ++ [a (Connecting [(m, t); (m, S t)])];
        microtasks := []; calls := S (S t); outcomes := outcomes w |})).
  { unfold connectDB. rewrite !read_cached_set_calls.
    assert (R : read_cached m w1 = {| conn := None; promise := Some p |}).
    { unfold read_cached, w1. simpl. by rewrite lookup_total_insert_eq. }
    rewrite R. simpl. unfold await. simpl. rewrite lookup_last_attempt by done.
    simpl. unfold set_attempts. simpl. rewrite insert_last_attempt by done.
    reflexivity. }
  rewrite W2. cbn [fst snd].
  set (w2 := {| objects := objects w1 |}) in *.
  assert (Hlen : length (attempts w2) = S p).
  { unfold w2. simpl. rewrite length_app. simpl. lia. }
  split_and!; [done | done | done | ..].
  - destruct o as [i|e]; unfold run, w2; run_attempt;
      rewrite length_app; simpl; lia.
  - destruct o as [i|e]; unfold run, w2; run_attempt; done.
  - destruct o as [i|e]; unfold run, w2; run_attempt.
    + rewrite !read_cached_write. simpl. split_and!.
      * rewrite lookup_insert_ne by lia. by rewrite lookup_insert_eq.
      * by rewrite lookup_insert_eq.
      * unfold read_cached. simpl. by rewrite !lookup_total_insert_eq.
    + split_and!.
      * rewrite lookup_insert_ne by lia. by rewrite lookup_insert_eq.
      * by rewrite lookup_insert_eq.
      * unfold read_cached. simpl. by rewrite !lookup_total_insert_eq.
Qed.

(** The two calls on the sample process, answered with connection 7. *)
Lemma two_calls_share_one_attempt_witness :
  let w' := run (connectDB sample_module (connectDB sample_module sample_process).2).2
              [Answer 0 (Connected {| connection := 7 |}); Tick; Tick; Tick] in
  outcomes w' !! 0 = Some (Normal (Some 7)) ∧
  outcomes w' !! 1 = Some (Normal (Some 7)) ∧
  length (attempts w') = 1.
Proof.
  pose proof (two_calls_share_one_attempt sample_module sample_process
                (Connected {| connection := 7 |}) eq_refl eq_refl) as H.
  cbn zeta in H. destruct H as (_ & _ & _ & H4 & _ & H6 & H7 & _).
  split; [exact H6|]. split; [exact H7 | exact H4].
Defined.

(** A cache that holds a connection keeps holding one: nothing assigns
    [null] to [cached.conn]. *)
Lemma write_cached_holds m f w l :
  (∀ o, is_Some (conn o) → is_Some (conn (f o))) →
  holds_connection l w → holds_connection l (write_cached m f w).
Proof.
  intros Hf H. unfold holds_connection, write_cached in *. simpl.
  destruct (decide (cached m = l)) as [->|Hne].
  - rewrite lookup_total_insert_eq. by apply Hf.
  - by rewrite lookup_total_insert_ne.
Qed.

Lemma await_objects m t p w : objects (await m t p w) = objects w.
Proof.
  unfold await. destruct (attempts w !! p) as [a|]; [|done]. by destruct (status a).
Qed.

Lemma connectDB_holds m w l :
  holds_connection l w → holds_connection l (connectDB m w).2.
Proof.
  intros H. unfold connectDB.
  destruct (conn (read_cached m (set_calls (S (calls w)) w))); [done|].
  destruct (promise (read_cached m (set_calls (S (calls w)) w))); simpl;
    unfold holds_connection; rewrite await_objects; [done|].
  by apply (write_cached_holds m (set_promise _)
              (set_attempts _ (set_calls (S (calls w)) w))).
Qed.

Lemma resume_holds m t s w l :
  holds_connection l w → holds_connection l (resume m t s w).
Proof.
  intros H. destruct s as [c|e]; simpl.
  - by apply (write_cached_holds m (set_conn (Some c))); [eexists|].
  - by apply (write_cached_holds m (set_promise None)).
Qed.

Lemma run_script_holds k l : ∀ w,
  holds_connection l w → holds_connection l (run_script k w).
Proof.
  induction k as [|m k IH|j _ k IH]; intros w H; simpl.
  - done.
  - by apply IH, connectDB_holds.
  - by apply IH.
Qed.

Lemma step_holds w ev l : holds_connection l w → holds_connection l (step w ev).
Proof.
  intros H. destruct ev as [p o|k|]; simpl.
  - destruct (attempts w !! p) as [a|]; [|done]. by destruct (status a).
  - done.
  - destruct (microtasks w) as [|j q]; [done|].
    destruct j as [p|m t s|k]; simpl.
    + unfold run_then. simpl. destruct (attempts w !! p) as [a|]; [|done].
      by destruct (status a).
    + by apply resume_holds.
    + by apply run_script_holds.
Qed.

Lemma run_holds evs l : ∀ w, holds_connection l w → holds_connection l (run w evs).
Proof.
  induction evs as [|ev evs IH]; intros w H; [done|].
  change (run w (ev :: evs)) with (run (step w ev) evs).
  by apply IH, step_holds.
Qed.


End ConnectDB.

(** ** Runs without a failure keep one attempt *)

Section SingleFlight.

Variable l : loc.
Implicit Types (m : MongodbModule) (w : Process).

Lemma await_single_flight m t p w :
  cached m = l →
  Forall (job_without_failure l) (microtasks w) →
  Forall (attempt_without_failure l) (attempts w) →
  Forall (job_without_failure l) (microtasks (await m t p w)) ∧
  Forall (attempt_without_failure l) (attempts (await m t p w)) ∧
  length (attempts (await m t p w)) = length (attempts w) ∧
  objects (await m t p w) = objects w.
Proof.
  intros Hm H1 H2. unfold await.
  destruct (attempts w !! p) as [a|] eqn:Ha; [|done].
  assert (Hok : attempt_without_failure l a).
  { by apply (Forall_lookup_1 _ _ _ _ H2 Ha). }
  unfold attempt_without_failure in Hok.
  destruct (status a) as [rs|o rs|s] eqn:Hs; simpl.
  - split_and!; [done | | by rewrite length_insert | done].
    apply Forall_insert; [done|]. unfold attempt_without_failure. simpl.
    apply Forall_app. split; [done|]. by apply Forall_singleton.
  - destruct Hok as [Ho Hrs].
    split_and!; [done | | by rewrite length_insert | done].
    apply Forall_insert; [done|]. unfold attempt_without_failure. simpl.
    split; [done|]. apply Forall_app. split; [done|]. by apply Forall_singleton.
  - split_and!; [| done | done | done].
    apply Forall_app. split; [done|]. by apply Forall_singleton.
Qed.

Lemma connectDB_single_flight m w :
  cached m = l → single_flight l w → single_flight l (connectDB m w).2.
Proof.
  intros Hm (H1 & H2 & H3). unfold connectDB.
  rewrite !read_cached_set_calls. unfold read_cached. rewrite Hm.
  destruct (conn (objects w !!! l)) as [c|] eqn:Hc; [done|].
  destruct (promise (objects w !!! l)) as [p|] eqn:Hp; simpl.
  - destruct (await_single_flight m (calls w) p (set_calls (S (calls w)) w) Hm H1 H2)
      as (A1 & A2 & A3 & A4).
    split_and!; [done | done |]. rewrite A4. simpl. rewrite Hp, A3. done.
  - set (w1 := write_cached m _ _).
    assert (B1 : Forall (job_without_failure l) (microtasks w1)) by done.
    assert (B2 : Forall (attempt_without_failure l) (attempts w1)).
    { unfold w1. simpl. rewrite H3. apply Forall_singleton.
      unfold attempt_without_failure. simpl. constructor. }
    destruct (await_single_flight m (calls w) (length (attempts w)) w1 Hm B1 B2)
      as (A1 & A2 & A3 & A4).
    split_and!; [done | done |]. rewrite A4, A3. unfold w1. simpl.
    rewrite Hm, lookup_total_insert_eq. simpl. by rewrite H3.
Qed.

Lemma resume_single_flight m t c w :
  cached m = l → single_flight l w → single_flight l (resume m t (Fulfilled c) w).
Proof.
  intros Hm (H1 & H2 & H3). unfold single_flight. simpl.
  split_and!; [done | done |]. rewrite Hm, lookup_total_insert_eq. done.
Qed.

Lemma run_then_single_flight p w :
  single_flight l w → single_flight l (run_then p w).
Proof.
  intros (H1 & H2 & H3). unfold run_then.
  destruct (attempts w !! p) as [a|] eqn:Ha; [|done].
  assert (Hok : attempt_without_failure l a).
  { by apply (Forall_lookup_1 _ _ _ _ H2 Ha). }
  unfold attempt_without_failure in Hok.
  destruct (status a) as [rs|o rs|s] eqn:Hs; [done | | done].
  destruct Hok as [[i ->] Hrs]. unfold single_flight. simpl.
  split_and!.
  - apply Forall_app. split; [done|]. apply Forall_fmap.
    eapply Forall_impl; [exact Hrs|]. intros [m t] Hr. simpl in *. eauto.
  - apply Forall_insert; [done|]. unfold attempt_without_failure. simpl. eauto.
  - destruct (promise (objects w !!! l)); [by rewrite length_insert|].
    rewrite H3 in Ha. done.
Qed.

Lemma run_script_single_flight k : ∀ w,
  script_uses l k → single_flight l w → single_flight l (run_script k w).
Proof.
  induction k as [|m k IH|j _ k IH]; intros w Hk H; simpl in *.
  - done.
  - destruct Hk as [Hm Hk]. by apply IH, connectDB_single_flight.
  - destruct Hk as [Hj Hk]. apply IH; [done|].
    destruct H as (H1 & H2 & H3). split_and!; [|done|done].
    simpl. apply Forall_app. split; [done|]. by apply Forall_singleton.
Qed.

Lemma step_single_flight w ev :
  event_without_failure l ev → single_flight l w → single_flight l (step w ev).
Proof.
  intros Hev H. destruct ev as [p [i|e]|k|]; simpl in *; [| done | |].
  - destruct H as (H1 & H2 & H3).
    destruct (attempts w !! p) as [a|] eqn:Ha; [|done].
    assert (Hok : attempt_without_failure l a).
    { by apply (Forall_lookup_1 _ _ _ _ H2 Ha). }
    unfold attempt_without_failure in Hok.
    destruct (status a) as [rs|o rs|s] eqn:Hs; [|done|done].
    unfold single_flight. simpl. split_and!.
    + apply Forall_app. split; [done|]. by apply Forall_singleton.
    + apply Forall_insert; [done|]. unfold attempt_without_failure. simpl. eauto.
    + destruct (promise (objects w !!! l)); [by rewrite length_insert|].
      rewrite H3 in Ha. done.
  - destruct H as (H1 & H2 & H3). split_and!; [|done|done].
    simpl. apply Forall_app. split; [done|]. by apply Forall_singleton.
  - destruct (microtasks w) as [|j q] eqn:Hq; [done|].
    destruct H as (H1 & H2 & H3). rewrite Hq in H1.
    apply Forall_cons in H1 as [Hj H1].
    assert (H' : single_flight l (set_microtasks (λ _, q) w)) by done.
    destruct j as [p|m t s|k]; simpl in *.
    + by apply run_then_single_flight.
    + destruct Hj as [Hm [c ->]]. by apply resume_single_flight.
    + by apply run_script_single_flight.
Qed.

Lemma run_single_flight evs : ∀ w,
  Forall (event_without_failure l) evs → single_flight l w →
  single_flight l (run w evs).
Proof.
  induction evs as [|ev evs IH]; intros w Hevs H; [done|].
  apply Forall_cons in Hevs as [Hev Hevs].
  change (run w (ev :: evs)) with (run (step w ev) evs).
  by apply IH, step_single_flight.
Qed.

End SingleFlight.

Lemma evaluate_single_flight (env : Env) (m : MongodbModule) :
  completion (evaluate env boot) = Normal m →
  single_flight (cached m) (after (evaluate env boot)).
Proof.
  unfold evaluate. destruct (falsy (env !! "MONGODB_URI")); [done|].
  simpl. intros [= <-]. unfold single_flight. simpl.
  split_and!; [constructor | constructor |].
  by rewrite lookup_total_insert_eq.
Qed.

(** X2: from a fresh process, as long as the driver does not fail and
    every call goes through the module that was evaluated, at most one
    connect attempt is ever made; so at most one is outstanding. *)
Theorem single_flight_without_failure
    (env : Env) (m : MongodbModule) (evs : list Event) :
  completion (evaluate env boot) = Normal m →
  Forall (event_without_failure (cached m)) evs →
  let w := run (after (evaluate env boot)) evs in
  (length (attempts w) ≤ 1)%nat ∧ (outstanding w ≤ 1)%nat.
Proof.
  intros Hm Hevs. cbn zeta.
  pose proof (run_single_flight (cached m) evs _ Hevs
                (evaluate_single_flight env m Hm)) as (_ & _ & H).
  assert (Hl : (length (attempts (run (after (evaluate env boot)) evs)) ≤ 1)%nat).
  { destruct (promise _); [lia|]. rewrite H. simpl. lia. }
  split; [done|]. unfold outstanding.
  etrans; [apply length_filter | exact Hl].
Qed.

(** Two callers and a successful answer. *)
Lemma single_flight_without_failure_witness :
  let w := run sample_process (two_callers {| connection := 7 |}) in
  (length (attempts w) ≤ 1)%nat ∧ (outstanding w ≤ 1)%nat.
Proof.
  apply (single_flight_without_failure sample_env sample_module
           (two_callers {| connection := 7 |}) eq_refl).
  repeat constructor.
Defined.

(** ** The cached connection, the failure path, and the claims about [connectDB] *)

(** X17: [resume] on a fulfilled promise stores the connection and returns
    it, and from any state in which the cache holds a connection [c], any
    number of calls made one after the other, through this evaluation of
    the module or any other that shares the cache object, each return [c]
    at once: no call is suspended, no connect attempt is made, no job is
    queued, and the cache is untouched.  Whatever runs afterwards, the cache
    keeps holding a connection. *)
Theorem connectDB_returns_cached_connection (m : MongodbModule) (c : Connection) :
  (∀ t w, let w1 := resume m t (Fulfilled c) w in
     outcomes w1 !! t = Some (Normal (Some c)) ∧
     conn (read_cached m w1) = Some c) ∧
  (∀ m' w n, cached m' = cached m → conn (read_cached m w) = Some c →
     let r := repeat_connectDB n m' w in
     r.1 = replicate n (Returned (Some c)) ∧
     objects r.2 = objects w ∧
     global_mongoose r.2 = global_mongoose w ∧
     attempts r.2 = attempts w ∧
     microtasks r.2 = microtasks w ∧
     (∀ i, calls w ≤ i < calls w + n →
        outcomes r.2 !! i = Some (Normal (Some c)))) ∧
  (∀ w evs, is_Some (conn (read_cached m w)) →
     is_Some (conn (read_cached m (run w evs)))).
Proof.
  split_and!.
  - intros t w. destruct (resume_fulfilled m t c w) as (H1 & H2 & _). by split.
  - intros m' w n Hm H.
    assert (H' : conn (read_cached m' w) = Some c).
    { unfold read_cached in *. by rewrite Hm. }
    destruct (repeat_connectDB_cached n m' w c H')
      as (E1 & E2 & E3 & E4 & E5 & _ & _ & E8).
    by repeat split.
  - intros w evs H. by apply (run_holds evs (cached m)).
Qed.

(** X18: when the awaited promise is rejected with [e], the call clears
    [cached.promise], leaves [cached.conn] as it was, and throws [e]; so
    when no connection is cached at that moment, the cache then holds
    neither a connection nor a promise, and the next call starts a new
    attempt, which it awaits. *)
Theorem connectDB_failure_resets_cache
    (m : MongodbModule) (t : CallId) (e : Error) (w : Process) :
  conn (read_cached m w) = None →
  let w1 := resume m t (then_connection (Failed e)) w in
  outcomes w1 !! t = Some (Throw e) ∧
  read_cached m w1 = {| conn := None; promise := None |} ∧
  attempts w1 = attempts w ∧
  let r := connectDB m w1 in
  r.1 = Suspended (length (attempts w)) ∧
  attempts r.2 =
    attempts w ++ [{| uri := MONGODB_URI m; opts := {| bufferCommands := false |};
                      status := Connecting [(m, calls w1)] |}] ∧
  promise (read_cached m r.2) = Some (length (attempts w)).
Proof.
  intros Hc. cbn zeta. change (then_connection (Failed e)) with (Rejected e).
  destruct (resume_rejected m t e w) as (H1 & H2 & H3 & H4 & _). cbn zeta in *.
  set (w1 := resume m t (Rejected e) w) in *.
  assert (Hempty : read_cached m w1 = {| conn := None; promise := None |}).
  { destruct (read_cached m w1) as [c p]. simpl in *. congruence. }
  destruct (connectDB_fresh m w1 Hempty) as (F1 & F2 & F3 & _). cbn zeta in *.
  rewrite H4 in F1, F2.
  repeat split; try done. by rewrite F3.
Qed.

(** The failure path on a process that made one call and got a failure. *)
Lemma connectDB_failure_resets_cache_witness :
  let e := PlainError "connect ECONNREFUSED" in
  let w := set_microtasks (λ _, [])
             (run sample_process [Schedule call_once; Tick; Answer 0 (Failed e); Tick]) in
  conn (read_cached sample_module w) = None ∧
  read_cached sample_module (resume sample_module 0 (then_connection (Failed e)) w)
    = {| conn := None; promise := None |}.
Proof.
  cbn zeta. split; [vm_compute; reflexivity|].
  refine (proj1 (proj2 (connectDB_failure_resets_cache sample_module 0 _ _ _))).
  vm_compute; reflexivity.
Defined.

(** C1, where the code departs from it: after the run [late_caller] the
    attempts 1 and 2 are both unanswered.  Before its last call the cache
    held no promise although attempt 1 was in flight, so that call started
    attempt 2 instead of awaiting attempt 1. *)
Theorem late_caller_two_attempts_outstanding :
  completion (evaluate sample_env boot) = Normal sample_module ∧
  let before := run sample_process (take 9 late_caller) in
  let w := run sample_process late_caller in
  read_cached sample_module before = {| conn := None; promise := None |} ∧
  map is_connecting (attempts before) = [false; true] ∧
  map is_connecting (attempts w) = [false; true; true] ∧
  outstanding w = 2.
Proof. vm_compute. repeat split. Qed.

(** C3, where the code departs from it, by the defect of C1: in the run
    [late_caller_then_failure] attempts 1 and 2 are in flight together;
    attempt 1 succeeds and its connection is cached, then attempt 2 fails.
    The call that awaited attempt 2 throws the failure and clears the
    promise, but after it the cache holds a connection, and the next call
    returns that connection at once: no new attempt is started. *)
Theorem failed_call_beside_cached_connection :
  let e := PlainError "connect ETIMEDOUT" in
  let before := run sample_process (take 16 late_caller_then_failure) in
  let w := run sample_process late_caller_then_failure in
  read_cached sample_module before = {| conn := Some 7; promise := Some 2 |} ∧
  microtasks before = [JResume sample_module 3 (Rejected e)] ∧
  w = step before Tick ∧
  outcomes w !! 3 = Some (Throw e) ∧
  read_cached sample_module w = {| conn := Some 7; promise := None |} ∧
  (connectDB sample_module w).1 = Returned (Some 7) ∧
  attempts (connectDB sample_module w).2 = attempts w.
Proof. vm_compute. repeat split. Qed.


(** C8 as stated fails: a variable that is present but empty is rejected
    like an absent one. *)
Lemma present_but_empty_uri_throws :
  let env : Env := {[ "MONGODB_URI" := "" ]} in
  is_Some (env !! "MONGODB_URI") ∧
  completion (evaluate env boot) = Throw (PlainError missing_uri_message).
Proof. cbn zeta. split; [by eexists | reflexivity]. Qed.

(** C8, amended: evaluating the module looks [MONGODB_URI] up once.  If the
    variable is absent or empty the evaluation throws and changes nothing,
    so there is no module whose [connectDB] could be called; if it holds a
    non-empty string the evaluation completes with that string as the
    module's constant.  Every module obtained from an evaluation carries the
    non-empty value of the variable. *)
Theorem evaluate_requires_uri (env : Env) (w : Process) :
  let ev := evaluate env w in
  env_reads ev = ["MONGODB_URI"] ∧
  (env !! "MONGODB_URI" = None ∨ env !! "MONGODB_URI" = Some "" →
     completion ev = Throw (PlainError missing_uri_message) ∧ after ev = w) ∧
  (∀ u, env !! "MONGODB_URI" = Some u → u ≠ "" →
     ∃ l, completion ev = Normal {| MONGODB_URI := u; cached := l |}) ∧
  (∀ m, completion ev = Normal m →
     env !! "MONGODB_URI" = Some (MONGODB_URI m) ∧ MONGODB_URI m ≠ "").
Proof.
  cbn zeta. unfold evaluate.
  destruct (env !! "MONGODB_URI") as [u|] eqn:Hu; simpl.
  - destruct (bool_decide_reflect (u = "")) as [->|Hne]; simpl.
    + split_and!; [done | done | by intros u [= <-] | done].
    + assert (Hm : ∀ l m, Normal {| MONGODB_URI := u; cached := l |} = Normal m →
                Some u = Some (MONGODB_URI m) ∧ MONGODB_URI m ≠ "")
        by (by intros l m [= <-]).
      destruct (global_mongoose w) as [l|]; simpl;
        (split_and!;
          [ done
          | by intros [|[= ->]]
          | intros u' [= <-] _; by eexists
          | apply Hm ]).
  - split_and!; [done | done | done | done].
Qed.

(** * Regular expressions: the matcher computes the language *)

Section Regex.
Import JS.















End Regex.

(** * The Booking model: the email path *)

Section EmailPath.

(** [String.prototype.toLowerCase] of the engine. *)
Variable toLowerCase : jsstring → jsstring.













(** What Mongoose makes of the options of the email path. *)
Lemma applySetters_email raw :
  applySetters toLowerCase (email_path BookingSchema) raw = trim (toLowerCase raw).
Proof. reflexivity. Qed.

Lemma validate_email_path v :
  validate_string (email_path BookingSchema) (Some v) =
    if validator v then None
    else Some (match v with
               | [] => "Email is required"
               | _ :: _ => "Please provide a valid email address"
               end).
Proof. destruct v as [|c v]; [reflexivity|]. simpl. by destruct (validator _). Qed.

End EmailPath.

(** * RFC 5322 on addresses without quoting *)

Section RFC.

Import RFC5322.




















End RFC.

Section EmailValidator.

Variable toLowerCase : jsstring → jsstring.



End EmailValidator.

(** * The Booking model: [save] *)

Section Save.

Implicit Types (doc : IBooking) (s : Store) (now : Date).

(** The hook, the write and [save] as plain functions of the store. *)
Lemma pre_save_hook_run doc s :
  pre_save_hook doc s =
    if isNew doc || isModified "eventId" doc then
      let s1 := {| db := db s;
                   log := log s ++ [FindEventById (eventId (fields doc))] |} in
      match eventId (fields doc) with
      | Some i =>
          if decide (i ∈ events (db s)) then (Normal tt, s1)
          else (Throw (PlainError (event_missing_message (Some i))), s1)
      | None => (Throw (PlainError (event_missing_message None)), s1)
      end
    else (Normal tt, s).
Proof.
  unfold pre_save_hook. destruct (isNew doc || isModified "eventId" doc); [|done].
  unfold bind, Event_findById, bind, send, get_db, ret, throw. simpl.
  destruct (eventId (fields doc)) as [i|]; [|done].
  by destruct (decide (i ∈ events (db s))).
Qed.

Lemma write_run doc s :
  write doc s =
    if isNew doc then
      let l := log s ++ [InsertBooking (_id doc)] in
      match bookings (db s) !! _id doc with
      | Some _ => (Throw (PlainError duplicate_key_message), {| db := db s; log := l |})
      | None =>
          (Normal (saved doc),
           {| db := {| events := events (db s);
                       bookings := <[_id doc := fields doc]> (bookings (db s)) |};
              log := l |})
      end
    else
      match modifiedPaths doc with
      | [] =>
          let l := log s ++ [FindBooking (_id doc)] in
          match bookings (db s) !! _id doc with
          | None => (Throw DocumentNotFoundError, {| db := db s; log := l |})
          | Some _ => (Normal (saved doc), {| db := db s; log := l |})
          end
      | _ :: _ =>
          let l := log s ++ [UpdateBooking (_id doc)] in
          match bookings (db s) !! _id doc with
          | None => (Throw DocumentNotFoundError, {| db := db s; log := l |})
          | Some stored =>
              (Normal (saved doc),
               {| db := {| events := events (db s);
                           bookings :=
                             <[_id doc := overwrite (modifiedPaths doc) (fields doc) stored]>
                               (bookings (db s)) |};
                  log := l |})
          end
      end.
Proof.
  unfold write. destruct (isNew doc).
  - unfold bind, send, get_db, put_bookings, ret, throw. simpl.
    by destruct (bookings (db s) !! _id doc).
  - destruct (modifiedPaths doc);
      unfold bind, send, get_db, put_bookings, ret, throw; simpl;
      by destruct (bookings (db s) !! _id doc).
Qed.

Lemma save_run now doc s :
  save BookingSchema now doc s =
    match validate BookingSchema doc with
    | [] =>
        match pre_save_hook (stamp now doc) s with
        | (Normal _, s1) => write (stamp now doc) s1
        | (Throw e, s1) => (Throw e, s1)
        end
    | e :: es => (Throw (ValidationError (e :: es)), s)
    end.
Proof.
  unfold save. destruct (validate BookingSchema doc); [|done].
  simpl. unfold bind.
  destruct (pre_save_hook (stamp now doc) s) as [[[]|e] s1]; done.
Qed.

(** The write sends no lookup. *)
Lemma lookups_app l1 l2 : lookups (l1 ++ l2) = lookups l1 ++ lookups l2.
Proof. unfold lookups. apply flat_map_app. Qed.

Lemma write_lookups doc s : lookups (log (write doc s).2) = lookups (log s).
Proof.
  rewrite write_run. destruct (isNew doc).
  - destruct (bookings (db s) !! _id doc); simpl;
      by rewrite lookups_app, app_nil_r.
  - destruct (modifiedPaths doc);
      destruct (bookings (db s) !! _id doc); simpl;
      by rewrite lookups_app, app_nil_r.
Qed.

(** Timestamps leave the identity, the reference, the email and what
    [isNew] and [isModified('eventId')] answer as they were. *)
Lemma elem_of_mark (p q : string) paths : p ≠ q → p ∈ mark q paths ↔ p ∈ paths.
Proof.
  intros Hne. unfold mark. destruct (decide (q ∈ paths)); [done|].
  rewrite elem_of_app, list_elem_of_singleton.
  split; [intros [?|?]; [done | congruence] | by left].
Qed.

Lemma stamp_keeps now doc :
  _id (stamp now doc) = _id doc ∧
  isNew (stamp now doc) = isNew doc ∧
  eventId (fields (stamp now doc)) = eventId (fields doc) ∧
  email (fields (stamp now doc)) = email (fields doc) ∧
  isModified "eventId" (stamp now doc) = isModified "eventId" doc ∧
  isModified "email" (stamp now doc) = isModified "email" doc.
Proof.
  unfold stamp, isModified. destruct (isNew doc) eqn:Hn; simpl.
  - split_and!; try done; apply bool_decide_ext; by rewrite !elem_of_mark.
  - destruct (modifiedPaths doc) eqn:Hm; simpl; rewrite ?Hm, ?Hn.
    + done.
    + split_and!; try done; apply bool_decide_ext; by rewrite !elem_of_mark.
Qed.

End Save.

Section SaveClaims.

Implicit Types (doc : IBooking) (s : Store) (now : Date).

Lemma save_invalid now doc s e es :
  validate BookingSchema doc = e :: es →
  save BookingSchema now doc s = (Throw (ValidationError (e :: es)), s).
Proof. intros H. by rewrite save_run, H. Qed.

Lemma save_valid now doc s :
  validate BookingSchema doc = [] →
  save BookingSchema now doc s =
    if isNew doc || isModified "eventId" doc then
      let s1 := {| db := db s;
                   log := log s ++ [FindEventById (eventId (fields doc))] |} in
      match eventId (fields doc) with
      | Some i =>
          if decide (i ∈ events (db s)) then write (stamp now doc) s1
          else (Throw (PlainError (event_missing_message (Some i))), s1)
      | None => (Throw (PlainError (event_missing_message None)), s1)
      end
    else write (stamp now doc) s.
Proof.
  intros H. rewrite save_run, H, pre_save_hook_run.
  destruct (stamp_keeps now doc) as (_ & -> & -> & _ & -> & _).
  destruct (isNew doc || isModified "eventId" doc); [|done].
  cbn zeta. destruct (eventId (fields doc)) as [i|]; [|done].
  by destruct (decide (i ∈ events (db s))).
Qed.

Lemma save_lookups now doc s :
  lookups (log (save BookingSchema now doc s).2) =
    lookups (log s) ++
      (if passes BookingSchema doc && (isNew doc || isModified "eventId" doc)
       then [eventId (fields doc)] else []).
Proof.
  unfold passes. destruct (validate BookingSchema doc) as [|e es] eqn:Hv.
  - rewrite (save_valid now doc s Hv). simpl.
    destruct (isNew doc || isModified "eventId" doc).
    + cbn zeta. destruct (eventId (fields doc)) as [i|].
      * destruct (decide (i ∈ events (db s))).
        -- rewrite write_lookups. simpl. by rewrite lookups_app.
        -- simpl. by rewrite lookups_app.
      * simpl. by rewrite lookups_app.
    + by rewrite write_lookups, app_nil_r.
  - rewrite (save_invalid now doc s e es Hv). simpl. by rewrite app_nil_r.
Qed.

(** C6: a document whose email fails the format check is refused by
    validation.  [save] throws a [ValidationError] that carries a message
    for the path [email] and returns the store as it found it: no lookup
    of the Event was sent and nothing was written, whatever the database
    holds. *)
Theorem malformed_email_fails_validation_first now doc s (v : jsstring) :
  email (fields doc) = Some v →
  validator v = false →
  ∃ errors,
    save BookingSchema now doc s = (Throw (ValidationError errors), s) ∧
    ("email",
     match v with
     | [] => "Email is required"
     | _ :: _ => "Please provide a valid email address"
     end) ∈ errors.
Proof.
  intros Hv Hf.
  set (m := match v with [] => "Email is required" | _ :: _ => _ end).
  assert (Hval : ∃ pre, validate BookingSchema doc = pre ++ [("email", m)]).
  { unfold validate. rewrite Hv, validate_email_path, Hf. by eexists. }
  destruct Hval as [pre Hval]. exists (pre ++ [("email", m)]). split.
  - destruct pre as [|e es]; simpl in Hval; by apply save_invalid.
  - apply elem_of_app. right. by apply list_elem_of_singleton.
Qed.

(** The email [not-an-email], with the Event present and with it absent. *)
Lemma malformed_email_fails_validation_first_witness :
  let doc := Booking_new ascii_toLowerCase BookingSchema B1 (Some E1)
               (Some (lit "not-an-email")) in
  validator (lit "not-an-email") = false ∧
  (∃ errors, save BookingSchema 1700000600000%N doc with_event
               = (Throw (ValidationError errors), with_event) ∧
             ("email", "Please provide a valid email address") ∈ errors) ∧
  (∃ errors, save BookingSchema 1700000600000%N doc without_event
               = (Throw (ValidationError errors), without_event) ∧
             ("email", "Please provide a valid email address") ∈ errors).
Proof.
  cbn zeta. split; [vm_compute; reflexivity|]. split.
  - apply (malformed_email_fails_validation_first 1700000600000%N _ with_event
             (lit "not-an-email")); vm_compute; reflexivity.
  - apply (malformed_email_fails_validation_first 1700000600000%N _ without_event
             (lit "not-an-email")); vm_compute; reflexivity.
Defined.

(** C5: the hook sends the lookup exactly when the document is new or its
    [eventId] is modified.  So does [save], once validation has let the
    document through; in particular the save of a stored Booking whose
    email alone was assigned sends no lookup. *)
Theorem event_lookup_iff_new_or_modified now doc s :
  log (pre_save_hook doc s).2 =
    log s ++ (if isNew doc || isModified "eventId" doc
              then [FindEventById (eventId (fields doc))] else []) ∧
  lookups (log (save BookingSchema now doc s).2) =
    lookups (log s) ++
      (if passes BookingSchema doc && (isNew doc || isModified "eventId" doc)
       then [eventId (fields doc)] else []) ∧
  (isNew doc = false → isModified "eventId" doc = false →
     lookups (log (save BookingSchema now doc s).2) = lookups (log s)) ∧
  (∀ toLowerCase id f raw,
     lookups (log (save BookingSchema now
                     (assign_email toLowerCase BookingSchema raw (hydrate id f)) s).2)
     = lookups (log s)).
Proof.
  split_and!.
  - rewrite pre_save_hook_run.
    destruct (isNew doc || isModified "eventId" doc); [|by rewrite app_nil_r].
    cbn zeta. destruct (eventId (fields doc)) as [i|]; [|done].
    by destruct (decide (i ∈ events (db s))).
  - apply save_lookups.
  - intros Hn Hm. by rewrite save_lookups, Hn, Hm, andb_false_r, app_nil_r.
  - intros toLowerCase id f raw. rewrite save_lookups.
    set (d := assign_email toLowerCase BookingSchema raw (hydrate id f)).
    assert (Hd : isNew d || isModified "eventId" d = false).
    { unfold d, assign_email. simpl. by destruct (decide _). }
    by rewrite Hd, andb_false_r, app_nil_r.
Qed.

End SaveClaims.

Section ReferenceCheck.

Implicit Types (doc : IBooking) (s : Store) (now : Date).

Lemma string_length_app (a b : string) :
  String.length (a +:+ b) = String.length a + String.length b.
Proof. induction a as [|c a IH]; simpl; [done | by rewrite IH]. Qed.

Lemma string_app_inj_r (t : string) : ∀ a b : string, a +:+ t = b +:+ t → a = b.
Proof.
  induction a as [|c a IH]; intros [|c' b] E.
  - done.
  - apply (f_equal String.length) in E.
    rewrite !string_length_app in E. simpl in E. lia.
  - apply (f_equal String.length) in E.
    rewrite !string_length_app in E. simpl in E. lia.
  - change (String c (a +:+ t) = String c' (b +:+ t)) in E.
    injection E as -> E. f_equal. by apply IH.
Qed.

(** The message names the identifier: different identifiers give
    different messages. *)
Lemma event_missing_message_inj (a b : ObjectId) :
  event_missing_message (Some a) = event_missing_message (Some b) → a = b.
Proof.
  unfold event_missing_message. simpl. intros E.
  apply (String.app_inj "Event with ID ") in E.
  by apply string_app_inj_r in E.
Qed.

(** C2 as stated fails.  A stored Booking whose Event has
    been deleted is saved with a new email: no error, and the record is
    written.  A new Booking with a malformed email and a missing Event is
    refused with a validation error, not with the reference error. *)
Lemma missing_event_without_reference_error :
  (E1 ∉ events (db event_deleted)) ∧
  (let doc := assign_email ascii_toLowerCase BookingSchema (lit "New@Example.com")
                (hydrate B1 stored_booking) in
   eventId (fields doc) = Some E1 ∧
   ∃ doc' s', save BookingSchema 1700000600000%N doc event_deleted = (Normal doc', s') ∧
     email <$> bookings (db s') !! B1 = Some (Some (lit "new@example.com"))) ∧
  (E1 ∉ events (db without_event)) ∧
  (let doc := Booking_new ascii_toLowerCase BookingSchema B1 (Some E1)
                (Some (lit "not-an-email")) in
   save BookingSchema 1700000600000%N doc without_event =
     (Throw (ValidationError [("email", "Please provide a valid email address")]),
      without_event)).
Proof.
  split_and!.
  - simpl. apply not_elem_of_empty.
  - cbn zeta. split; [reflexivity|].
    destruct (save BookingSchema 1700000600000%N
                (assign_email ascii_toLowerCase BookingSchema (lit "New@Example.com")
                   (hydrate B1 stored_booking)) event_deleted) as [r s'] eqn:E.
    vm_compute in E. injection E as <- <-. eexists _, _. split; [reflexivity|].
    by vm_compute.
  - simpl. apply not_elem_of_empty.
  - by vm_compute.
Qed.

(** C2, amended: when a document passes validation and is new or has its
    [eventId] modified, [save] looks the Event up before it writes.  If
    there is no such Event, [save] throws the error whose message names the
    identifier, having sent nothing but the lookup: the database is as it
    was.  If the Event exists, [save] goes on to the write, and a new
    document with an unused [_id] is stored. *)
Theorem save_checks_event_reference now doc s (id : ObjectId) :
  validate BookingSchema doc = [] →
  isNew doc || isModified "eventId" doc = true →
  eventId (fields doc) = Some id →
  let s1 := {| db := db s; log := log s ++ [FindEventById (Some id)] |} in
  (id ∉ events (db s) →
     save BookingSchema now doc s =
       (Throw (PlainError (event_missing_message (Some id))), s1)) ∧
  (id ∈ events (db s) →
     save BookingSchema now doc s = write (stamp now doc) s1) ∧
  (id ∈ events (db s) → isNew doc = true → bookings (db s) !! _id doc = None →
     ∃ s2, save BookingSchema now doc s = (Normal (saved (stamp now doc)), s2) ∧
           bookings (db s2) !! _id doc = Some (fields (stamp now doc))) ∧
  (∀ id', event_missing_message (Some id') = event_missing_message (Some id) →
          id' = id).
Proof.
  intros Hv Hc He. cbn zeta.
  assert (Hs := save_valid now doc s Hv). rewrite Hc, He in Hs. cbn zeta in Hs.
  split_and!.
  - intros Hin. rewrite Hs. by destruct (decide (id ∈ events (db s))).
  - intros Hin. rewrite Hs. by destruct (decide (id ∈ events (db s))).
  - intros Hin Hn Hf. rewrite Hs. destruct (decide (id ∈ events (db s))); [|done].
    rewrite write_run.
    destruct (stamp_keeps now doc) as (Ei & En & _). rewrite En, Hn, Ei. simpl.
    rewrite Hf. eexists. split; [reflexivity|]. simpl. apply lookup_insert_eq.
  - intros id'. apply event_missing_message_inj.
Qed.

(** A new Booking for a missing Event, and for an existing one. *)
Lemma save_checks_event_reference_witness :
  let doc := Booking_new ascii_toLowerCase BookingSchema B1 (Some E1)
               (Some (lit "User@Example.com")) in
  save BookingSchema 1700000600000%N doc without_event =
    (Throw (PlainError "Event with ID 652f1c0e8b3a4d1f9c0a7b11 does not exist"),
     {| db := db without_event; log := [FindEventById (Some E1)] |}) ∧
  ∃ s2, save BookingSchema 1700000600000%N doc with_event
          = (Normal (saved (stamp 1700000600000%N doc)), s2) ∧
        bookings (db s2) !! B1 = Some (fields (stamp 1700000600000%N doc)).
Proof.
  cbn zeta. split.
  - refine (proj1 (save_checks_event_reference 1700000600000%N _ without_event E1
                     _ _ _) _);
      [by vm_compute | reflexivity | reflexivity | simpl; apply not_elem_of_empty].
  - refine (proj1 (proj2 (proj2 (save_checks_event_reference 1700000600000%N _
                                   with_event E1 _ _ _))) _ _ _);
      [by vm_compute | reflexivity | reflexivity
      | simpl; by apply elem_of_singleton | reflexivity | reflexivity].
Defined.

End ReferenceCheck.

Section Normalisation.

Implicit Types (doc : IBooking) (s : Store) (now : Date).

(** [String.prototype.toLowerCase] of the engine; on a string of Basic
    Latin it lowers the letters [A] to [Z] and nothing else. *)
Variable toLowerCase : jsstring → jsstring.
Hypothesis toLowerCase_ascii :
  ∀ v, is_ascii v → toLowerCase v = map ascii_lower v.

(** A save that succeeds ends with a write that succeeds, on the same
    database. *)
Lemma save_success now doc s doc' s' :
  save BookingSchema now doc s = (Normal doc', s') →
  ∃ s1, write (stamp now doc) s1 = (Normal doc', s') ∧ db s1 = db s.
Proof.
  intros H. destruct (validate BookingSchema doc) as [|e es] eqn:Hv.
  - rewrite (save_valid now doc s Hv) in H.
    destruct (isNew doc || isModified "eventId" doc).
    + cbn zeta in H. destruct (eventId (fields doc)) as [i|]; [|done].
      destruct (decide (i ∈ events (db s))); [|done]. by eexists.
    + by eexists.
  - by rewrite (save_invalid now doc s e es Hv) in H.
Qed.

Lemma write_new_stores doc s doc' s' :
  isNew doc = true →
  write doc s = (Normal doc', s') →
  bookings (db s') !! _id doc = Some (fields doc).
Proof.
  intros Hn. rewrite write_run, Hn. cbn zeta.
  destruct (bookings (db s) !! _id doc); [done|].
  intros [= _ <-]. simpl. apply lookup_insert_eq.
Qed.

Lemma write_update_stores doc s doc' s' :
  isNew doc = false →
  "email" ∈ modifiedPaths doc →
  write doc s = (Normal doc', s') →
  email <$> bookings (db s') !! _id doc = Some (email (fields doc)).
Proof.
  intros Hn Hm. rewrite write_run, Hn.
  destruct (modifiedPaths doc) as [|p ps] eqn:Hp; [by apply elem_of_nil in Hm|].
  cbn zeta. destruct (bookings (db s) !! _id doc) as [stored|]; [|done].
  intros [= _ <-]. simpl. rewrite lookup_insert_eq. simpl.
  by rewrite decide_True.
Qed.

(** C7: the email that is stored is the supplied one, lower-cased and
    trimmed.  This holds when a Booking built from supplied values is saved,
    and when a stored Booking is saved after an email was assigned to it.
    With an existing Event and an unused [_id], the Booking with email
    [User@Example.com] is saved, and [user@example.com] is stored. *)
Theorem persisted_email_is_normalized now s :
  (∀ id e raw doc' s',
     save BookingSchema now
       (Booking_new toLowerCase BookingSchema id e (Some raw)) s = (Normal doc', s') →
     email <$> bookings (db s') !! id = Some (Some (trim (toLowerCase raw)))) ∧
  (∀ id f raw doc' s',
     bookings (db s) !! id = Some f →
     save BookingSchema now
       (assign_email toLowerCase BookingSchema raw (hydrate id f)) s = (Normal doc', s') →
     email <$> bookings (db s') !! id = Some (Some (trim (toLowerCase raw)))) ∧
  (∀ id e, e ∈ events (db s) → bookings (db s) !! id = None →
     ∃ doc' s',
       save BookingSchema now
         (Booking_new toLowerCase BookingSchema id (Some e)
            (Some (lit "User@Example.com"))) s = (Normal doc', s') ∧
       email <$> bookings (db s') !! id = Some (Some (lit "user@example.com"))).
Proof.
  assert (Hnew : ∀ id e raw doc' s',
     save BookingSchema now
       (Booking_new toLowerCase BookingSchema id e (Some raw)) s = (Normal doc', s') →
     email <$> bookings (db s') !! id = Some (Some (trim (toLowerCase raw)))).
  { intros id e raw doc' s' H.
    apply save_success in H as (s1 & H & _).
    set (d := Booking_new toLowerCase BookingSchema id e (Some raw)) in *.
    destruct (stamp_keeps now d) as (Ei & En & _ & Em & _).
    apply write_new_stores in H; [|by rewrite En].
    rewrite Ei in H. change (_id d) with id in H. rewrite H. reflexivity. }
  split_and!.
  - exact Hnew.
  - intros id f raw doc' s' Hf H.
    unfold assign_email in H. rewrite applySetters_email in H. simpl in H.
    destruct (decide (email f = Some (trim (toLowerCase raw)))) as [E|E].
    + apply save_success in H as (s1 & H & Hdb).
      rewrite write_run in H. simpl in H. rewrite Hdb, Hf in H.
      injection H as _ <-. simpl. rewrite Hf. simpl. by rewrite E.
    + apply save_success in H as (s1 & H & _).
      apply write_update_stores in H; [| done |].
      * simpl in H. rewrite H. done.
      * simpl. apply elem_of_mark; [done|]. by apply list_elem_of_singleton.
  - intros id e He Hf.
    assert (Hl : toLowerCase (lit "User@Example.com") = lit "user@example.com").
    { rewrite toLowerCase_ascii; [reflexivity|].
      unfold is_ascii. apply Forall_forall. intros c Hc.
      repeat (apply elem_of_cons in Hc as [->|Hc]; [reflexivity|]).
      by apply elem_of_nil in Hc. }
    set (d := Booking_new toLowerCase BookingSchema id (Some e)
                (Some (lit "User@Example.com"))).
    assert (Hm : email (fields d) = Some (lit "user@example.com")).
    { unfold d, Booking_new. simpl. rewrite applySetters_email, Hl. reflexivity. }
    assert (Hv : validate BookingSchema d = []).
    { unfold validate. rewrite Hm. reflexivity. }
    destruct (save BookingSchema now d s) as [r s'] eqn:Hs.
    assert (Hs' := Hs). rewrite (save_valid now d s Hv) in Hs'.
    change (isNew d || isModified "eventId" d) with true in Hs'.
    change (eventId (fields d)) with (Some e) in Hs'. cbv beta iota zeta in Hs'.
    rewrite decide_True in Hs' by done. rewrite write_run in Hs'.
    destruct (stamp_keeps now d) as (Ei & En & _ & Em & _).
    rewrite En, Ei in Hs'. change (isNew d) with true in Hs'.
    change (_id d) with id in Hs'. cbn [db] in Hs'. rewrite Hf in Hs'.
    injection Hs' as <- <-. eexists _, _. split; [reflexivity|].
    simpl. rewrite lookup_insert_eq. simpl. do 2 f_equal.
    change (trim (toLowerCase (lit "User@Example.com")) = lit "user@example.com").
    by rewrite Hl.
Qed.

End Normalisation.

(** With the Basic Latin [toLowerCase], on the database that has the Event. *)
Lemma persisted_email_is_normalized_witness :
  ∃ doc' s',
    save BookingSchema 1700000600000%N
      (Booking_new ascii_toLowerCase BookingSchema B1 (Some E1)
         (Some (lit "User@Example.com"))) with_event = (Normal doc', s') ∧
    email <$> bookings (db s') !! B1 = Some (Some (lit "user@example.com")).
Proof.
  refine (proj2 (proj2 (persisted_email_is_normalized ascii_toLowerCase
                          (λ v _, eq_refl) 1700000600000%N with_event)) B1 E1 _ _).
  - simpl. by apply elem_of_singleton.
  - reflexivity.
Defined.

(** * Evaluating the modules again *)

Section Reevaluation.

Implicit Types (m : MongodbModule) (w : Process).

(** Nothing that runs after the evaluation assigns [global.mongoose]. *)
Lemma await_global m t p w : global_mongoose (await m t p w) = global_mongoose w.
Proof.
  unfold await. destruct (attempts w !! p) as [a|]; [|done]. by destruct (status a).
Qed.

Lemma connectDB_global m w : global_mongoose (connectDB m w).2 = global_mongoose w.
Proof.
  unfold connectDB. destruct (conn (read_cached m (set_calls (S (calls w)) w))); [done|].
  destruct (promise (read_cached m (set_calls (S (calls w)) w)));
    simpl; by rewrite await_global.
Qed.

Lemma run_script_global k : ∀ w, global_mongoose (run_script k w) = global_mongoose w.
Proof.
  induction k as [|m k IH|j _ k IH]; intros w; simpl.
  - done.
  - by rewrite IH, connectDB_global.
  - by rewrite IH.
Qed.

Lemma run_job_global j w : global_mongoose (run_job j w) = global_mongoose w.
Proof.
  destruct j as [p|m t [c|e]|k]; simpl.
  - unfold run_then. destruct (attempts w !! p) as [a|]; [|done]. by destruct (status a).
  - done.
  - done.
  - apply run_script_global.
Qed.

Lemma step_global w ev : global_mongoose (step w ev) = global_mongoose w.
Proof.
  destruct ev as [p o|k|]; simpl.
  - destruct (attempts w !! p) as [a|]; [|done]. by destruct (status a).
  - done.
  - destruct (microtasks w) as [|j q]; [done|]. by rewrite run_job_global.
Qed.

Lemma run_global evs : ∀ w, global_mongoose (run w evs) = global_mongoose w.
Proof.
  induction evs as [|ev evs IH]; intros w; [done|].
  change (run w (ev :: evs)) with (run (step w ev) evs).
  by rewrite IH, step_global.
Qed.

(** A successful evaluation leaves [global.mongoose] pointing at the object
    the module's [cached] refers to. *)
Lemma evaluate_global env w m :
  completion (evaluate env w) = Normal m →
  global_mongoose (after (evaluate env w)) = Some (cached m).
Proof.
  unfold evaluate. destruct (falsy (env !! "MONGODB_URI")); [done|].
  destruct (global_mongoose w) as [l|] eqn:Hg; simpl; intros [= <-]; done.
Qed.

(** With [global.mongoose] set, an evaluation changes nothing and takes the
    object that is there. *)
Lemma evaluate_reuses env w l :
  global_mongoose w = Some l →
  after (evaluate env w) = w ∧
  ∀ m, completion (evaluate env w) = Normal m → cached m = l.
Proof.
  intros Hg. unfold evaluate. destruct (falsy (env !! "MONGODB_URI")); [done|].
  rewrite Hg. simpl. split; [done|]. by intros m [= <-].
Qed.

(** The guard of the Booking module: a model registered under [Booking] is
    what the evaluation gives, whatever model it is; nothing is compiled and
    the registered models stay as they are. *)
Lemma Booking_registered (g : Registry) (M0 : Model) :
  models g !! "Booking" = Some M0 →
  (Booking g).1 = Normal M0 ∧
  models (Booking g).2 = models g ∧
  compiled (Booking g).2 = compiled g.
Proof. intros H. unfold Booking. simpl. by rewrite H. Qed.

(** Without one, the evaluation compiles a model from the new Schema object
    and registers it. *)
Lemma Booking_unregistered (g : Registry) :
  models g !! "Booking" = None →
  let M := {| modelName := "Booking";
              schema := {| identity := schemas g; definition := BookingSchema |};
              serial := compiled g |} in
  (Booking g).1 = Normal M ∧
  models (Booking g).2 = <["Booking" := M]> (models g) ∧
  compiled (Booking g).2 = S (compiled g) ∧
  schemas (Booking g).2 = S (schemas g).
Proof. intros H. unfold Booking, model. simpl. by rewrite H. Qed.

(** C10: after a first successful evaluation of the connection module and
    whatever ran since, evaluating it again leaves the process as it is (the
    cache object keeps its connection and its promise) and gives a module
    whose [cached] is the same object.  Evaluating the Booking module while
    a model is registered under [Booking] returns that very model, whichever
    it is, compiles none and leaves the registered models as they are; so
    the second of two evaluations returns the model the first one left in
    the registry, and the registry holds the same models, as many compiled,
    after two evaluations as after one. *)
Theorem reevaluation_reuses_global_state
    (env env' : Env) (w : Process) (m : MongodbModule)
    (evs : list Event) (g : Registry) :
  completion (evaluate env w) = Normal m →
  let w1 := run (after (evaluate env w)) evs in
  let again := evaluate env' w1 in
  let first := Booking g in
  let second := Booking first.2 in
  after again = w1 ∧
  (∀ m', completion again = Normal m' →
         cached m' = cached m ∧ read_cached m' (after again) = read_cached m w1) ∧
  (∀ M0, models g !! "Booking" = Some M0 →
         first.1 = Normal M0 ∧
         models first.2 = models g ∧ compiled first.2 = compiled g) ∧
  (∃ M, first.1 = Normal M ∧ models first.2 !! "Booking" = Some M ∧
        second.1 = Normal M) ∧
  models second.2 = models first.2 ∧
  compiled second.2 = compiled first.2.
Proof.
  intros Hm. cbn zeta.
  assert (Hg : global_mongoose (run (after (evaluate env w)) evs) = Some (cached m)).
  { rewrite run_global. by apply evaluate_global. }
  destruct (evaluate_reuses env' _ _ Hg) as [Ha Hc].
  assert (HM : ∃ M, (Booking g).1 = Normal M ∧
                    models (Booking g).2 !! "Booking" = Some M).
  { destruct (models g !! "Booking") as [M0|] eqn:E.
    - destruct (Booking_registered g M0 E) as (H1 & H2 & _).
      exists M0. by rewrite H2.
    - destruct (Booking_unregistered g E) as (H1 & H2 & _). cbn zeta in *.
      eexists. split; [exact H1|]. by rewrite H2, lookup_insert_eq. }
  destruct HM as (M & H1 & H2).
  destruct (Booking_registered _ M H2) as (S1 & S2 & S3).
  split_and!.
  - exact Ha.
  - intros m' Hm'. specialize (Hc m' Hm'). split; [done|].
    rewrite Ha. unfold read_cached. by rewrite Hc.
  - intros M0 E. by apply Booking_registered.
  - by exists M.
  - exact S2.
  - exact S3.
Qed.

(** The module evaluated again while a connection is cached, and the
    Booking module evaluated twice from an empty registry. *)
Lemma reevaluation_reuses_global_state_witness :
  let w1 := run sample_process (two_callers {| connection := 7 |}) in
  let first := Booking empty_registry in
  completion (evaluate sample_env boot) = Normal sample_module ∧
  read_cached sample_module w1 = {| conn := Some 7; promise := Some 0 |} ∧
  after (evaluate sample_env w1) = w1 ∧
  models (Booking first.2).2 = models first.2 ∧
  compiled (Booking first.2).2 = 1.
Proof.
  cbn zeta.
  pose proof (reevaluation_reuses_global_state sample_env sample_env boot
                sample_module (two_callers {| connection := 7 |})
                empty_registry eq_refl) as H.
  cbn zeta in H. destruct H as (H1 & _ & _ & _ & H5 & H6).
  split; [reflexivity|]. split; [by vm_compute|].
  split; [exact H1|]. split; [exact H5|]. by rewrite H6.
Defined.

End Reevaluation.

(** * lib/mongodb.ts: further properties of [connectDB] *)

Section ConnectDBRuns.

Implicit Types (m : MongodbModule) (w : Process).

Lemma await_outcomes m t p w : outcomes (await m t p w) = outcomes w.
Proof.
  unfold await. destruct (attempts w !! p) as [a|]; [|done]. by destruct (status a).
Qed.

(** [return cached.conn] never returns [null]. *)
Lemma finish_non_null t r w :
  (∀ v, r = Normal v → is_Some v) →
  outcomes_non_null w → outcomes_non_null (finish t r w).
Proof.
  intros Hr H t' v. simpl. rewrite lookup_insert. case_decide.
  - intros [= ->]. by apply Hr.
  - apply H.
Qed.

Lemma connectDB_non_null m w :
  outcomes_non_null w → outcomes_non_null (connectDB m w).2.
Proof.
  intros H. unfold connectDB.
  destruct (conn (read_cached m (set_calls (S (calls w)) w))) as [c|].
  - apply finish_non_null; [|done]. intros v [= <-]. by eexists.
  - destruct (promise (read_cached m (set_calls (S (calls w)) w))); simpl;
      unfold outcomes_non_null; rewrite await_outcomes; exact H.
Qed.

Lemma resume_non_null m t s w :
  outcomes_non_null w → outcomes_non_null (resume m t s w).
Proof.
  intros H. destruct s as [c|e]; simpl.
  - apply (finish_non_null t _ (write_cached m (set_conn (Some c)) w)); [|done].
    intros v [= <-]. rewrite read_cached_write. by eexists.
  - by apply (finish_non_null t _ (write_cached m (set_promise None) w)).
Qed.

Lemma run_script_non_null k : ∀ w,
  outcomes_non_null w → outcomes_non_null (run_script k w).
Proof.
  induction k as [|m k IH|j _ k IH]; intros w H; simpl.
  - done.
  - by apply IH, connectDB_non_null.
  - by apply IH.
Qed.

Lemma step_non_null w ev : outcomes_non_null w → outcomes_non_null (step w ev).
Proof.
  intros H. destruct ev as [p o|k|]; simpl.
  - destruct (attempts w !! p) as [a|]; [|done]. by destruct (status a).
  - done.
  - destruct (microtasks w) as [|j q]; [done|].
    destruct j as [p|m t s|k]; simpl.
    + unfold run_then. simpl. destruct (attempts w !! p) as [a|]; [|done].
      by destruct (status a).
    + by apply resume_non_null.
    + by apply run_script_non_null.
Qed.

(** X3: [connectDB] never resolves to [null]: along every run, a call that
    completed normally delivered a connection. *)
Theorem connectDB_never_resolves_to_null (w : Process) (evs : list Event) :
  outcomes_non_null w → outcomes_non_null (run w evs).
Proof.
  revert w. induction evs as [|ev evs IH]; intros w H; [done|].
  change (run w (ev :: evs)) with (run (step w ev) evs).
  by apply IH, step_non_null.
Qed.

(** The process before any call, and after two callers were served. *)
Lemma connectDB_never_resolves_to_null_witness :
  outcomes_non_null sample_process ∧
  outcomes_non_null (run sample_process (two_callers {| connection := 7 |})).
Proof.
  assert (H : outcomes_non_null sample_process) by (intros t v; by vm_compute).
  split; [exact H|]. by apply connectDB_never_resolves_to_null.
Defined.

(** Without a failure of the driver no call throws. *)
Lemma connectDB_no_rejection m w : no_rejection w → no_rejection (connectDB m w).2.
Proof.
  intros H. unfold connectDB.
  destruct (conn (read_cached m (set_calls (S (calls w)) w))) as [c|].
  - intros t e. simpl. rewrite lookup_insert. case_decide; [done | apply H].
  - destruct (promise (read_cached m (set_calls (S (calls w)) w))); simpl;
      unfold no_rejection; rewrite await_outcomes; exact H.
Qed.

Lemma run_script_no_rejection k : ∀ w, no_rejection w → no_rejection (run_script k w).
Proof.
  induction k as [|m k IH|j _ k IH]; intros w H; simpl.
  - done.
  - by apply IH, connectDB_no_rejection.
  - by apply IH.
Qed.

Lemma step_no_rejection l w ev :
  event_without_failure l ev → single_flight l w →
  no_rejection w → no_rejection (step w ev).
Proof.
  intros Hev (H1 & _ & _) H. destruct ev as [p [i|e]|k|]; simpl in *; [| done | done |].
  - destruct (attempts w !! p) as [a|]; [|done]. by destruct (status a).
  - destruct (microtasks w) as [|j q]; [done|].
    apply Forall_cons in H1 as [Hj _].
    destruct j as [p|m t s|k]; simpl in *.
    + unfold run_then. simpl. destruct (attempts w !! p) as [a|]; [|done].
      by destruct (status a).
    + destruct Hj as [_ [c ->]]. intros t' e. simpl.
      rewrite lookup_insert. case_decide; [done | apply H].
    + by apply run_script_no_rejection.
Qed.

Lemma run_no_rejection l evs : ∀ w,
  Forall (event_without_failure l) evs → single_flight l w →
  no_rejection w → no_rejection (run w evs).
Proof.
  induction evs as [|ev evs IH]; intros w Hevs Hs H; [done|].
  apply Forall_cons in Hevs as [Hev Hevs].
  change (run w (ev :: evs)) with (run (step w ev) evs).
  apply IH; [done | by apply (step_single_flight l) | by apply (step_no_rejection l)].
Qed.

(** X4: [connectDB] throws nothing of its own: from a fresh process, as
    long as the driver does not fail and every call goes through the module
    that was evaluated, no call of [connectDB] throws. *)
Theorem connectDB_throws_only_on_failure
    (env : Env) (m : MongodbModule) (evs : list Event) :
  completion (evaluate env boot) = Normal m →
  Forall (event_without_failure (cached m)) evs →
  no_rejection (run (after (evaluate env boot)) evs).
Proof.
  intros Hm Hevs.
  apply (run_no_rejection (cached m)); [done | by apply evaluate_single_flight |].
  intros t e. unfold evaluate.
  destruct (falsy (env !! "MONGODB_URI")); [done|].
  by destruct (global_mongoose boot).
Qed.

(** Two callers served by one successful attempt. *)
Lemma connectDB_throws_only_on_failure_witness :
  no_rejection (run sample_process (two_callers {| connection := 7 |})).
Proof.
  apply (connectDB_throws_only_on_failure sample_env sample_module
           (two_callers {| connection := 7 |}) eq_refl).
  repeat constructor.
Defined.

(** Every attempt is made on the module's URI, without buffering. *)
Lemma await_connects_to u m t p w :
  Forall (attempt_to u) (attempts w) → Forall (job_connects_to u) (microtasks w) →
  Forall (attempt_to u) (attempts (await m t p w)) ∧
  Forall (job_connects_to u) (microtasks (await m t p w)).
Proof.
  intros H1 H2. unfold await.
  destruct (attempts w !! p) as [a|] eqn:Ha; [|done].
  assert (Hok : attempt_to u a) by (by apply (Forall_lookup_1 _ _ _ _ H1 Ha)).
  destruct (status a); simpl.
  - split; [|done]. by apply Forall_insert.
  - split; [|done]. by apply Forall_insert.
  - split; [done|]. apply Forall_app. split; [done|]. by apply Forall_singleton.
Qed.

Lemma connectDB_connects_to u m w :
  MONGODB_URI m = u →
  Forall (attempt_to u) (attempts w) → Forall (job_connects_to u) (microtasks w) →
  Forall (attempt_to u) (attempts (connectDB m w).2) ∧
  Forall (job_connects_to u) (microtasks (connectDB m w).2).
Proof.
  intros Hm H1 H2. unfold connectDB.
  destruct (conn (read_cached m (set_calls (S (calls w)) w))) as [c|]; [done|].
  destruct (promise (read_cached m (set_calls (S (calls w)) w))); simpl.
  - by apply await_connects_to.
  - apply await_connects_to; [|done]. simpl.
    apply Forall_app. split; [done|]. by apply Forall_singleton.
Qed.

Lemma run_script_connects_to u k : ∀ w,
  script_connects_to u k →
  Forall (attempt_to u) (attempts w) → Forall (job_connects_to u) (microtasks w) →
  Forall (attempt_to u) (attempts (run_script k w)) ∧
  Forall (job_connects_to u) (microtasks (run_script k w)).
Proof.
  induction k as [|m k IH|j _ k IH]; intros w Hk H1 H2; simpl in *.
  - done.
  - destruct Hk as [Hm Hk].
    destruct (connectDB_connects_to u m w Hm H1 H2) as [A1 A2]. by apply IH.
  - destruct Hk as [Hj Hk]. apply IH; [done | done |]. simpl.
    apply Forall_app. split; [done|]. by apply Forall_singleton.
Qed.

Lemma step_connects_to u w ev :
  event_connects_to u ev →
  Forall (attempt_to u) (attempts w) → Forall (job_connects_to u) (microtasks w) →
  Forall (attempt_to u) (attempts (step w ev)) ∧
  Forall (job_connects_to u) (microtasks (step w ev)).
Proof.
  intros Hev H1 H2. destruct ev as [p o|k|]; simpl in *.
  - destruct (attempts w !! p) as [a|] eqn:Ha; [|done].
    assert (Hok : attempt_to u a) by (by apply (Forall_lookup_1 _ _ _ _ H1 Ha)).
    destruct (status a); [|done..]. simpl. split.
    + by apply Forall_insert.
    + apply Forall_app. split; [done|]. by apply Forall_singleton.
  - split; [done|]. apply Forall_app. split; [done|]. by apply Forall_singleton.
  - destruct (microtasks w) as [|j q] eqn:Hq; [by rewrite Hq|].
    apply Forall_cons in H2 as [Hj H2].
    destruct j as [p|m t s|k]; simpl in *.
    + unfold run_then. simpl. destruct (attempts w !! p) as [a|] eqn:Ha; [|done].
      assert (Hok : attempt_to u a) by (by apply (Forall_lookup_1 _ _ _ _ H1 Ha)).
      destruct (status a) as [|o rs|]; [done | | done]. simpl. split.
      * by apply Forall_insert.
      * apply Forall_app. split; [done|]. apply Forall_fmap.
        by apply Forall_true.
    + by destruct s.
    + by apply run_script_connects_to.
Qed.

Lemma run_connects_to u evs : ∀ w,
  Forall (event_connects_to u) evs →
  Forall (attempt_to u) (attempts w) → Forall (job_connects_to u) (microtasks w) →
  Forall (attempt_to u) (attempts (run w evs)).
Proof.
  induction evs as [|ev evs IH]; intros w Hevs H1 H2; [done|].
  apply Forall_cons in Hevs as [Hev Hevs].
  change (run w (ev :: evs)) with (run (step w ev) evs).
  destruct (step_connects_to u w ev Hev H1 H2) as [A1 A2]. by apply IH.
Qed.

(** X5: every connect attempt is made on the URI the module read from the
    environment, which is not empty, and with [bufferCommands: false]. *)
Theorem attempts_use_module_uri_without_buffering
    (env : Env) (m : MongodbModule) (evs : list Event) :
  completion (evaluate env boot) = Normal m →
  Forall (event_connects_to (MONGODB_URI m)) evs →
  Forall (λ a, env !! "MONGODB_URI" = Some (uri a) ∧ uri a ≠ "" ∧
               bufferCommands (opts a) = false)
    (attempts (run (after (evaluate env boot)) evs)).
Proof.
  intros Hm Hevs.
  assert (Hu : env !! "MONGODB_URI" = Some (MONGODB_URI m) ∧ MONGODB_URI m ≠ "").
  { revert Hm. unfold evaluate.
    destruct (env !! "MONGODB_URI") as [u|]; simpl; [|done].
    destruct (bool_decide_reflect (u = "")); [done|]. by intros [= <-]. }
  assert (H : Forall (attempt_to (MONGODB_URI m))
                (attempts (run (after (evaluate env boot)) evs))).
  { apply run_connects_to; [done | |].
    - unfold evaluate. destruct (falsy _); [constructor|]. constructor.
    - unfold evaluate. destruct (falsy _); [constructor|]. constructor. }
  eapply Forall_impl; [exact H|]. intros a [-> Hb]. by destruct Hu.
Qed.

(** Two callers: one attempt, on the sample URI. *)
Lemma attempts_use_module_uri_without_buffering_witness :
  Forall (λ a, sample_env !! "MONGODB_URI" = Some (uri a) ∧ uri a ≠ "" ∧
               bufferCommands (opts a) = false)
    (attempts (run sample_process (two_callers {| connection := 7 |}))).
Proof.
  apply (attempts_use_module_uri_without_buffering sample_env sample_module
           (two_callers {| connection := 7 |}) eq_refl).
  repeat constructor.
Defined.

End ConnectDBRuns.

Section ConnectDBComposition.

Implicit Types (m : MongodbModule) (w : Process).







End ConnectDBComposition.

(** * lib/mongodb.ts: runs without a failure deliver one connection *)

Section OneConnection.

Variable l : loc.
Implicit Types (m : MongodbModule) (w : Process).

Lemma lookup_insert_answer (xs : list Attempt) p a a' :
  xs !! p = Some a → answer_of a' = answer_of a →
  <[p := a']> xs !! 0 ≫= answer_of = xs !! 0 ≫= answer_of.
Proof.
  destruct xs as [|x xs]; [done|].
  destruct p as [|p]; simpl; [|done]. by intros [= ->] ->.
Qed.

Lemma single_flight_first w p a :
  single_flight l w → attempts w !! p = Some a → p = 0.
Proof.
  intros (_ & _ & H) Ha. apply lookup_lt_Some in Ha.
  destruct (promise (objects w !!! l)); [lia|]. rewrite H in Ha. simpl in Ha. lia.
Qed.

(** The invariant reads the cache, the outcomes, the queue and the answer
    to the first attempt. *)
Lemma one_connection_intro w w' :
  delivered w' = delivered w → objects w' = objects w →
  outcomes w' = outcomes w →
  Forall (job_delivers (delivered w)) (microtasks w') →
  one_connection l w → one_connection l w'.
Proof.
  intros E1 E2 E3 Hq (H1 & H2 & _). unfold one_connection.
  by rewrite E1, E2, E3.
Qed.

Lemma await_delivered m t p w : delivered (await m t p w) = delivered w.
Proof.
  unfold await, delivered.
  destruct (attempts w !! p) as [a|] eqn:Ha; [|done].
  destruct (status a) as [rs|o rs|s] eqn:Hs; simpl; [| |done].
  - apply (lookup_insert_answer _ p a); [done|]. unfold answer_of. simpl. by rewrite Hs.
  - apply (lookup_insert_answer _ p a); [done|]. unfold answer_of. simpl. by rewrite Hs.
Qed.

Lemma await_one_connection m t p w :
  (length (attempts w) ≤ 1)%nat →
  one_connection l w → one_connection l (await m t p w).
Proof.
  intros Hlen (H1 & H2 & H3). unfold one_connection.
  rewrite await_delivered, await_objects, await_outcomes.
  split_and!; [done | done |].
  unfold await. destruct (attempts w !! p) as [a|] eqn:Ha; [|done].
  destruct (status a) as [rs|o rs|s] eqn:Hs; simpl; [done | done |].
  apply Forall_app. split; [done|]. apply Forall_singleton.
  destruct s as [c|e]; [|done].
  assert (p = 0) as ->.
  { apply lookup_lt_Some in Ha. lia. }
  unfold PromiseId in Ha.
  change (attempts w !! 0 ≫= answer_of = Some c).
  rewrite Ha. simpl. unfold answer_of. by rewrite Hs.
Qed.

Lemma connectDB_one_connection m w :
  cached m = l → single_flight l w → one_connection l w →
  one_connection l (connectDB m w).2.
Proof.
  intros Hm Hsf (H1 & H2 & H3).
  assert (Hlen : (length (attempts w) ≤ 1)%nat).
  { destruct Hsf as (_ & _ & H). destruct (promise _); [lia|]. rewrite H. simpl. lia. }
  unfold connectDB. rewrite !read_cached_set_calls. unfold read_cached. rewrite Hm.
  destruct (conn (objects w !!! l)) as [c|] eqn:Hc.
  - assert (Hd : delivered w = Some c) by (by apply H1).
    split_and!; simpl.
    + intros c0. rewrite Hc. by intros [= <-].
    + intros t v. destruct (decide (t = calls w)) as [->|Hne].
      * rewrite lookup_insert_eq. intros [= <-]. split; [by eexists | done].
      * rewrite lookup_insert_ne by done. apply H2.
    + done.
  - destruct (promise (objects w !!! l)) as [p|] eqn:Hp; simpl.
    + apply await_one_connection; [done|].
      split_and!; [|done|done]. intros c. simpl. by rewrite Hc.
    + destruct Hsf as (_ & _ & Hno). rewrite Hp in Hno.
      assert (Hd : delivered w = None).
      { unfold delivered. by rewrite Hno. }
      apply await_one_connection; [simpl; rewrite Hno; simpl; lia|].
      unfold one_connection, delivered. simpl. rewrite Hno. simpl.
      rewrite Hm, lookup_total_insert_eq. simpl.
      split_and!.
      * intros c. by rewrite Hc.
      * intros t v Hv. destruct (H2 t v Hv) as [[c ->] E]. by rewrite Hd in E.
      * by rewrite Hd in H3.
Qed.

Lemma resume_one_connection m t c w :
  cached m = l → delivered w = Some c → one_connection l w →
  one_connection l (resume m t (Fulfilled c) w).
Proof.
  intros Hm Hd (H1 & H2 & H3). unfold one_connection, delivered in *. simpl.
  rewrite Hm, !lookup_total_insert_eq. simpl.
  split_and!.
  - intros c' [= <-]. done.
  - intros t' v. destruct (decide (t' = t)) as [->|Hne].
    + rewrite lookup_insert_eq. intros [= <-].
      rewrite read_cached_write. simpl. split; [by eexists | done].
    + rewrite lookup_insert_ne by done. apply H2.
  - done.
Qed.

Lemma run_then_one_connection p w :
  single_flight l w → one_connection l w → one_connection l (run_then p w).
Proof.
  intros Hsf (H1 & H2 & H3). unfold run_then.
  destruct (attempts w !! p) as [a|] eqn:Ha; [|done].
  assert (Hp := single_flight_first w p a Hsf Ha). subst p.
  unfold PromiseId in Ha.
  destruct Hsf as (_ & Hok & _).
  assert (Ha' := Forall_lookup_1 _ _ _ _ Hok Ha).
  unfold attempt_without_failure in Ha'.
  destruct (status a) as [rs|o rs|s] eqn:Hs; [done | | done].
  destruct Ha' as [[i ->] _].
  assert (Hd : delivered w = Some (connection i)).
  { unfold delivered. rewrite Ha. simpl. unfold answer_of. by rewrite Hs. }
  assert (H : one_connection l w) by done.
  apply (one_connection_intro w); [| done | done | | done].
  - unfold delivered. simpl. apply (lookup_insert_answer _ 0 a); [done|].
    unfold answer_of. simpl. by rewrite Hs.
  - simpl. apply Forall_app. split; [done|]. apply Forall_fmap, Forall_forall.
    intros r _. done.
Qed.

Lemma enqueue_app_one_connection k w :
  one_connection l w → one_connection l (enqueue (JApp k) w).
Proof.
  intros (H1 & H2 & H3). split_and!; [done | done |].
  simpl. apply Forall_app. split; [done|]. by apply Forall_singleton.
Qed.

Lemma run_script_one_connection k : ∀ w,
  script_uses l k → single_flight l w → one_connection l w →
  one_connection l (run_script k w).
Proof.
  induction k as [|m k IH|j _ k IH]; intros w Hk Hsf H; simpl in *.
  - done.
  - destruct Hk as [Hm Hk]. apply IH; [done | |].
    + by apply connectDB_single_flight.
    + by apply connectDB_one_connection.
  - destruct Hk as [Hj Hk]. apply IH; [done | |].
    + apply (step_single_flight l w (Schedule j)); done.
    + by apply enqueue_app_one_connection.
Qed.

Lemma step_one_connection w ev :
  event_without_failure l ev → single_flight l w → one_connection l w →
  one_connection l (step w ev).
Proof.
  intros Hev Hsf H. destruct ev as [p [i|e]|k|]; simpl in *; [| done | |].
  - destruct (attempts w !! p) as [a|] eqn:Ha; [|done].
    assert (Hp := single_flight_first w p a Hsf Ha). subst p.
    unfold PromiseId in Ha.
    destruct (status a) as [rs|o rs|s] eqn:Hs; [|done|done].
    destruct H as (H1 & H2 & H3).
    assert (Hd : delivered w = None).
    { unfold delivered. rewrite Ha. simpl. unfold answer_of. by rewrite Hs. }
    unfold one_connection. simpl. split_and!.
    + intros c Hc. specialize (H1 c Hc). by rewrite Hd in H1.
    + intros t v Hv. destruct (H2 t v Hv) as [[c ->] E]. by rewrite Hd in E.
    + apply Forall_app. split; [|by apply Forall_singleton].
      eapply Forall_impl; [exact H3|]. intros [q|m t [c|e]|k] Hj; try done.
      simpl in Hj. by rewrite Hd in Hj.
  - by apply enqueue_app_one_connection.
  - destruct (microtasks w) as [|j q] eqn:Hq; [done|].
    assert (Hsf' : single_flight l (set_microtasks (λ _, q) w)).
    { destruct Hsf as (S1 & S2 & S3). rewrite Hq in S1.
      apply Forall_cons in S1 as [_ S1]. done. }
    assert (Hj : job_without_failure l j ∧ job_delivers (delivered w) j).
    { destruct Hsf as (S1 & _ & _). destruct H as (_ & _ & H3).
      rewrite Hq in S1, H3.
      apply Forall_cons in S1 as [? _]. apply Forall_cons in H3 as [? _]. done. }
    assert (H' : one_connection l (set_microtasks (λ _, q) w)).
    { destruct H as (H1 & H2 & H3). rewrite Hq in H3.
      apply Forall_cons in H3 as [_ H3]. done. }
    destruct Hj as [Hj1 Hj2].
    destruct j as [p|m t s|k]; simpl in *.
    + by apply run_then_one_connection.
    + destruct Hj1 as [Hm [c ->]]. by apply resume_one_connection.
    + by apply run_script_one_connection.
Qed.

Lemma run_one_connection evs : ∀ w,
  Forall (event_without_failure l) evs → single_flight l w → one_connection l w →
  one_connection l (run w evs).
Proof.
  induction evs as [|ev evs IH]; intros w Hevs Hsf H; [done|].
  apply Forall_cons in Hevs as [Hev Hevs].
  change (run w (ev :: evs)) with (run (step w ev) evs).
  apply IH; [done | |].
  - by apply step_single_flight.
  - by apply step_one_connection.
Qed.

End OneConnection.

Lemma evaluate_one_connection (env : Env) (m : MongodbModule) :
  completion (evaluate env boot) = Normal m →
  one_connection (cached m) (after (evaluate env boot)).
Proof.
  unfold evaluate. destruct (falsy (env !! "MONGODB_URI")); [done|].
  simpl. intros [= <-]. unfold one_connection. simpl.
  split_and!; [| done | constructor].
  intros c. by rewrite lookup_total_insert_eq.
Qed.

(** X19: from a fresh process, as long as the driver does not fail and
    every call goes through the module that was evaluated, every call that
    has returned has returned the connection the first attempt was answered
    with, and that is the connection the cache holds; so no two calls
    return different connections. *)
Theorem one_connection_without_failure
    (env : Env) (m : MongodbModule) (evs : list Event) :
  completion (evaluate env boot) = Normal m →
  Forall (event_without_failure (cached m)) evs →
  let w := run (after (evaluate env boot)) evs in
  (∀ t v, outcomes w !! t = Some (Normal v) → is_Some v ∧ v = delivered w) ∧
  (∀ c, conn (read_cached m w) = Some c → delivered w = Some c) ∧
  (∀ t t' v v', outcomes w !! t = Some (Normal v) →
                outcomes w !! t' = Some (Normal v') → v = v').
Proof.
  intros Hm Hevs. cbn zeta.
  pose proof (run_one_connection (cached m) evs _ Hevs
                (evaluate_single_flight env m Hm)
                (evaluate_one_connection env m Hm)) as (H1 & H2 & _).
  split_and!; [done | done |].
  intros t t' v v' Hv Hv'.
  destruct (H2 t v Hv) as [_ ->]. by destruct (H2 t' v' Hv') as [_ ->].
Qed.

(** Two callers and a successful answer: both get connection 7. *)
Lemma one_connection_without_failure_witness :
  let w := run sample_process (two_callers {| connection := 7 |}) in
  outcomes w !! 0 = Some (Normal (Some 7)) ∧
  outcomes w !! 1 = Some (Normal (Some 7)) ∧
  delivered w = Some 7 ∧
  (∀ t v, outcomes w !! t = Some (Normal v) → is_Some v ∧ v = delivered w).
Proof.
  cbn zeta. split_and!; [by vm_compute | by vm_compute | by vm_compute |].
  apply (one_connection_without_failure sample_env sample_module
           (two_callers {| connection := 7 |}) eq_refl).
  repeat constructor.
Defined.

(** * The Booking model: what [save] keeps *)

Section SaveInvariants.

Implicit Types (doc : IBooking) (s : Store) (now : Date).

(** What validation has checked when it lets a document through. *)
Lemma validate_nil doc :
  validate BookingSchema doc = [] →
  ∃ e v, eventId (fields doc) = Some e ∧ email (fields doc) = Some v ∧
         validator v = true.
Proof.
  unfold validate. destruct (eventId (fields doc)) as [e|]; [|done]. simpl.
  destruct (email (fields doc)) as [v|]; [|done].
  rewrite validate_email_path. destruct (validator v) eqn:Hv; [|done].
  intros _. by exists e, v.
Qed.

(** [save] either leaves the database alone or ends in the write, reached
    after validation and after the hook. *)
Lemma save_cases now doc s :
  db (save BookingSchema now doc s).2 = db s ∨
  ∃ s1, db s1 = db s ∧
        save BookingSchema now doc s = write (stamp now doc) s1 ∧
        validate BookingSchema doc = [] ∧
        (isNew doc || isModified "eventId" doc = true →
           ∃ e, eventId (fields doc) = Some e ∧ e ∈ events (db s)).
Proof.
  destruct (validate BookingSchema doc) as [|e es] eqn:Hv.
  - rewrite (save_valid now doc s Hv).
    destruct (isNew doc || isModified "eventId" doc).
    + cbn zeta. destruct (eventId (fields doc)) as [i|]; [|by left].
      destruct (decide (i ∈ events (db s))); [|by left].
      right. eexists. split_and!; [| done | done |]; [done|]. intros _. by exists i.
    + right. exists s. by split_and!.
  - left. by rewrite (save_invalid now doc s e es Hv).
Qed.

Lemma write_events doc s : events (db (write doc s).2) = events (db s).
Proof.
  rewrite write_run. destruct (isNew doc).
  - by destruct (bookings (db s) !! _id doc).
  - destruct (modifiedPaths doc); by destruct (bookings (db s) !! _id doc).
Qed.

Lemma write_throws doc s e s' : write doc s = (Throw e, s') → db s' = db s.
Proof.
  rewrite write_run. destruct (isNew doc).
  - destruct (bookings (db s) !! _id doc); [|done]. by intros [= _ <-].
  - destruct (modifiedPaths doc); destruct (bookings (db s) !! _id doc);
      try done; by intros [= _ <-].
Qed.

(** A property of records that the inserted record has and that the [$set]
    keeps holds of every record after the write. *)
Lemma write_keeps (P : Fields → Prop) doc s :
  (∀ id f, bookings (db s) !! id = Some f → P f) →
  (isNew doc = true → P (fields doc)) →
  (∀ stored, P stored → P (overwrite (modifiedPaths doc) (fields doc) stored)) →
  ∀ id f, bookings (db (write doc s).2) !! id = Some f → P f.
Proof.
  intros Hdb Hnew Hset id f. rewrite write_run. destruct (isNew doc).
  - destruct (bookings (db s) !! _id doc) eqn:Hl; simpl; [apply Hdb|].
    rewrite lookup_insert. case_decide; [|apply Hdb].
    intros [= <-]. by apply Hnew.
  - destruct (modifiedPaths doc) eqn:Hm.
    + destruct (bookings (db s) !! _id doc); apply Hdb.
    + destruct (bookings (db s) !! _id doc) as [stored|] eqn:Hl; simpl; [|apply Hdb].
      rewrite lookup_insert. case_decide; [|apply Hdb].
      intros [= <-]. apply Hset. by apply (Hdb (_id doc)).
Qed.

(** X8: [save] keeps referential integrity: if every stored Booking refers
    to an existing Event, so does every stored Booking after the save,
    whatever the document and whether or not the save succeeds; and [save]
    leaves the Event collection as it is. *)
Theorem save_keeps_references now doc s :
  references_exist (db s) →
  references_exist (db (save BookingSchema now doc s).2) ∧
  events (db (save BookingSchema now doc s).2) = events (db s).
Proof.
  intros H. destruct (save_cases now doc s) as [E|(s1 & E1 & E & Hv & Hc)].
  - by rewrite E.
  - rewrite E. rewrite write_events, E1. split; [|done].
    destruct (stamp_keeps now doc) as (_ & En & Ee & _ & Em & _).
    intros id f. rewrite write_events, E1. revert id f.
    apply (write_keeps (λ f, ∃ e, eventId f = Some e ∧ e ∈ events (db s))).
    + rewrite E1. apply H.
    + rewrite En, Ee. intros Hn. apply Hc. by rewrite Hn.
    + intros stored Hs. simpl. case_decide as Hin; [|done].
      rewrite Ee. apply Hc.
      assert (Hi : isModified "eventId" (stamp now doc) = true)
        by (by apply bool_decide_eq_true).
      rewrite Em in Hi. rewrite Hi. apply orb_true_r.
Qed.

(** A Booking for an existing Event, saved into an empty collection. *)
Lemma save_keeps_references_witness :
  let doc := Booking_new ascii_toLowerCase BookingSchema B1 (Some E1)
               (Some (lit "User@Example.com")) in
  references_exist (db with_event) ∧
  references_exist (db (save BookingSchema 1700000600000%N doc with_event).2).
Proof.
  cbn zeta.
  assert (H : references_exist (db with_event)) by (intros id f; by simpl).
  split; [exact H|].
  exact (proj1 (save_keeps_references 1700000600000%N _ with_event H)).
Defined.

(** X9: a save that throws, for whatever reason, leaves the database as it
    was. *)
Theorem failed_save_changes_nothing now doc s (e : Error) s' :
  save BookingSchema now doc s = (Throw e, s') → db s' = db s.
Proof.
  intros H. destruct (save_cases now doc s) as [E|(s1 & E1 & E & _)].
  - by rewrite H in E.
  - rewrite E in H. apply write_throws in H. by rewrite H.
Qed.

(** The save of a Booking for a missing Event. *)
Lemma failed_save_changes_nothing_witness :
  let doc := Booking_new ascii_toLowerCase BookingSchema B1 (Some E1)
               (Some (lit "User@Example.com")) in
  db (save BookingSchema 1700000600000%N doc without_event).2 = db without_event.
Proof.
  cbn zeta.
  set (doc := Booking_new _ _ _ _ _).
  refine (failed_save_changes_nothing 1700000600000%N doc without_event
            (PlainError (event_missing_message (Some E1)))
            (save BookingSchema 1700000600000%N doc without_event).2 _).
  by vm_compute.
Defined.

(** X10: [save] keeps the collection well-formed: if every stored Booking
    has an Event reference and an email the validator accepts, so has every
    stored Booking after the save. *)
Theorem save_keeps_records_valid now doc s :
  records_valid (db s) → records_valid (db (save BookingSchema now doc s).2).
Proof.
  intros H. destruct (save_cases now doc s) as [E|(s1 & E1 & E & Hv & _)].
  - by rewrite E.
  - rewrite E. destruct (validate_nil doc Hv) as (e & v & He & Hm & Hok).
    destruct (stamp_keeps now doc) as (_ & _ & Ee & Ev & _).
    intros id f. apply (write_keeps valid_record).
    + rewrite E1. apply H.
    + intros _. unfold valid_record. rewrite Ee, Ev, He, Hm. eauto.
    + intros stored [Hs1 Hs2]. unfold valid_record. simpl.
      rewrite Ee, Ev, He, Hm. split; case_decide; eauto.
Qed.

(** A valid Booking saved into an empty collection. *)
Lemma save_keeps_records_valid_witness :
  let doc := Booking_new ascii_toLowerCase BookingSchema B1 (Some E1)
               (Some (lit "User@Example.com")) in
  records_valid (db with_event) ∧
  records_valid (db (save BookingSchema 1700000600000%N doc with_event).2).
Proof.
  cbn zeta.
  assert (H : records_valid (db with_event)) by (intros id f; by simpl).
  split; [exact H|].
  exact (save_keeps_records_valid 1700000600000%N _ with_event H).
Defined.

End SaveInvariants.

(** * The Booking model: required paths, repeated saves, timestamps *)

Section SaveEdges.

Implicit Types (doc : IBooking) (s : Store) (now : Date).

(** X11: a Booking without [eventId] is refused by validation with the
    message of the schema, before anything is sent to the database; and
    [save] never looks an undefined identifier up: every lookup it sends
    names an identifier. *)
Theorem missing_event_id_is_required now doc s :
  (eventId (fields doc) = None →
     ∃ errors,
       save BookingSchema now doc s = (Throw (ValidationError errors), s) ∧
       ("eventId", "Event ID is required") ∈ errors) ∧
  (∀ o, o ∈ lookups (log (save BookingSchema now doc s).2) →
        o ∈ lookups (log s) ∨ is_Some o).
Proof.
  split.
  - intros He.
    assert (Hv : ∃ rest, validate BookingSchema doc =
                           ("eventId", "Event ID is required") :: rest).
    { unfold validate. rewrite He. simpl. by eexists. }
    destruct Hv as [rest Hv]. eexists. split; [by apply save_invalid|].
    apply elem_of_cons. by left.
  - intros o. rewrite save_lookups. rewrite elem_of_app. intros [H|H]; [by left|].
    right. unfold passes in H.
    destruct (validate BookingSchema doc) eqn:Hv; simpl in H;
      [|by apply elem_of_nil in H].
    destruct (isNew doc || isModified "eventId" doc); [|by apply elem_of_nil in H].
    apply list_elem_of_singleton in H as ->.
    destruct (validate_nil doc Hv) as (e & _ & -> & _). by eexists.
Qed.

(** White space only is trimmed to the empty string. *)
Lemma trimStart_white_space (v : jsstring) :
  Forall (λ c, is_white_space c = true) v → trimStart v = [].
Proof. induction 1 as [|c v Hc _ IH]; simpl; [done | by rewrite Hc]. Qed.

Lemma trim_white_space (v : jsstring) :
  Forall (λ c, is_white_space c = true) v → trim v = [].
Proof.
  intros H. unfold trim, trimEnd. rewrite (trimStart_white_space v H).
  reflexivity.
Qed.

(** X12: a Booking without email is refused by validation with the message
    [Email is required], before anything is sent to the database; so is a
    Booking built from an email that is white space only, which the setters
    turn into the empty string. *)
Theorem missing_email_is_required now doc s :
  (email (fields doc) = None →
     ∃ errors,
       save BookingSchema now doc s = (Throw (ValidationError errors), s) ∧
       ("email", "Email is required") ∈ errors) ∧
  (∀ toLowerCase id e raw,
     Forall (λ c, is_white_space c = true) (toLowerCase raw) →
     ∃ errors,
       save BookingSchema now
         (Booking_new toLowerCase BookingSchema id e (Some raw)) s
         = (Throw (ValidationError errors), s) ∧
       ("email", "Email is required") ∈ errors).
Proof.
  assert (Hreq : ∀ d, validate_string (email_path BookingSchema) (email (fields d))
                      = Some "Email is required" →
            ∃ errors,
              save BookingSchema now d s = (Throw (ValidationError errors), s) ∧
              ("email", "Email is required") ∈ errors).
  { intros d Hd.
    assert (Hv : ∃ pre, validate BookingSchema d =
                          pre ++ [("email", "Email is required")]).
    { unfold validate. rewrite Hd. by eexists. }
    destruct Hv as [pre Hv]. exists (pre ++ [("email", "Email is required")]).
    split.
    - destruct pre; simpl in Hv; by apply save_invalid.
    - apply elem_of_app. right. by apply list_elem_of_singleton. }
  split.
  - intros He. apply Hreq. by rewrite He.
  - intros toLowerCase id e raw Hw. apply Hreq. simpl.
    rewrite (applySetters_email toLowerCase), trim_white_space by done. reflexivity.
Qed.

(** A successful write returns the document as saved and leaves its record
    in the collection. *)
Lemma write_normal doc s doc' s' :
  write doc s = (Normal doc', s') →
  doc' = saved doc ∧ is_Some (bookings (db s') !! _id doc).
Proof.
  rewrite write_run. destruct (isNew doc).
  - destruct (bookings (db s) !! _id doc) eqn:Hl; [done|].
    intros [= <- <-]. simpl. rewrite lookup_insert_eq. by split.
  - destruct (modifiedPaths doc);
      destruct (bookings (db s) !! _id doc) eqn:Hl; try done;
      intros [= <- <-]; simpl; rewrite ?lookup_insert_eq, ?Hl; by split.
Qed.

(** X13: saving again what [save] returned changes nothing: the second save
    passes validation, sends no Event lookup, and only checks that the
    record is there. *)
Theorem save_again_changes_nothing now now' doc s doc' s' :
  save BookingSchema now doc s = (Normal doc', s') →
  save BookingSchema now' doc' s' =
    (Normal doc', {| db := db s'; log := log s' ++ [FindBooking (_id doc)] |}).
Proof.
  intros H.
  assert (Hv : validate BookingSchema doc = []).
  { destruct (validate BookingSchema doc) as [|e es] eqn:Hv; [done|].
    by rewrite (save_invalid now doc s e es Hv) in H. }
  apply save_success in H as (s1 & H & _).
  apply write_normal in H as [-> Hin].
  destruct (stamp_keeps now doc) as (Ei & _ & Ee & Em & _).
  set (d := saved (stamp now doc)).
  assert (Hv' : validate BookingSchema d = []).
  { unfold validate in *. unfold d. simpl. by rewrite Ee, Em. }
  rewrite (save_valid now' d s' Hv'). simpl. rewrite write_run. simpl.
  rewrite Ei in Hin. rewrite Ei. destruct Hin as [f ->]. reflexivity.
Qed.

(** A new Booking saved twice. *)
Lemma save_again_changes_nothing_witness :
  let doc := Booking_new ascii_toLowerCase BookingSchema B1 (Some E1)
               (Some (lit "User@Example.com")) in
  let first := save BookingSchema 1700000600000%N doc with_event in
  ∃ doc', first.1 = Normal doc' ∧
    save BookingSchema 1700000700000%N doc' first.2 =
      (Normal doc', {| db := db first.2; log := log first.2 ++ [FindBooking B1] |}).
Proof.
  cbn zeta.
  set (doc := Booking_new _ _ _ _ _).
  destruct (save BookingSchema 1700000600000%N doc with_event) as [r s'] eqn:E.
  assert (Hr : r = Normal (saved (stamp 1700000600000%N doc))).
  { apply (f_equal fst) in E. by vm_compute in E. }
  subst r. eexists. split; [reflexivity|].
  exact (save_again_changes_nothing 1700000600000%N 1700000700000%N doc
           with_event _ s' E).
Defined.

End SaveEdges.

Section Timestamps.

Implicit Types (doc : IBooking) (s : Store) (now : Date).

Variable toLowerCase : jsstring → jsstring.

(** X14: timestamps.  A new Booking is stored with [createdAt] and
    [updatedAt] both set to the time of the save.  When a stored Booking is
    saved with a changed email, the record keeps its [eventId] and its
    [createdAt], and its [updatedAt] becomes the time of the save. *)
Theorem save_sets_timestamps now s :
  (∀ id e raw doc' s',
     save BookingSchema now
       (Booking_new toLowerCase BookingSchema id e (Some raw)) s = (Normal doc', s') →
     bookings (db s') !! id =
       Some {| eventId := e; email := Some (trim (toLowerCase raw));
               createdAt := Some now; updatedAt := Some now |}) ∧
  (∀ id f raw doc' s',
     bookings (db s) !! id = Some f →
     email f ≠ Some (trim (toLowerCase raw)) →
     save BookingSchema now
       (assign_email toLowerCase BookingSchema raw (hydrate id f)) s = (Normal doc', s') →
     bookings (db s') !! id =
       Some {| eventId := eventId f; email := Some (trim (toLowerCase raw));
               createdAt := createdAt f; updatedAt := Some now |}).
Proof.
  split.
  - intros id e raw doc' s' H.
    apply save_success in H as (s1 & H & _).
    apply write_new_stores in H; [|reflexivity]. exact H.
  - intros id f raw doc' s' Hf Hne H.
    unfold assign_email in H. rewrite applySetters_email in H. simpl in H.
    rewrite decide_False in H by done.
    apply save_success in H as (s1 & H & Hdb).
    rewrite write_run in H. simpl in H. rewrite Hdb, Hf in H.
    injection H as _ <-. simpl. by rewrite lookup_insert_eq.
Qed.

End Timestamps.

(** With the Basic Latin [toLowerCase]: the stored Booking gets a new email. *)
Lemma save_sets_timestamps_witness :
  let s := {| db := {| events := {[ E1 ]}; bookings := {[ B1 := stored_booking ]} |};
              log := [] |} in
  let doc := assign_email ascii_toLowerCase BookingSchema (lit "New@Example.com")
               (hydrate B1 stored_booking) in
  bookings (db (save BookingSchema 1700000600000%N doc s).2) !! B1 =
    Some {| eventId := Some E1; email := Some (lit "new@example.com");
            createdAt := Some 1700000000000%N;
            updatedAt := Some 1700000600000%N |}.
Proof.
  cbn zeta.
  set (s := {| db := _; log := [] |}). set (doc := assign_email _ _ _ _).
  destruct (save BookingSchema 1700000600000%N doc s) as [r s'] eqn:E.
  assert (Hr : r = Normal (saved (stamp 1700000600000%N doc))).
  { apply (f_equal fst) in E. by vm_compute in E. }
  subst r.
  refine (proj2 (save_sets_timestamps ascii_toLowerCase 1700000600000%N s)
            B1 stored_booking (lit "New@Example.com") _ s' _ _ E).
  - reflexivity.
  - by vm_compute.
Defined.

Section RegistryGuard.

(** X15: evaluating the Booking module never throws: the model that is
    registered is returned, or a model is compiled from the new Schema
    object and registered.  Other models of the registry are left as they
    are and at most one model is compiled.  Afterwards [model] called with
    the Schema object of the registered model gives that model, while the
    module evaluated again without the guard, which calls [model] with a
    new Schema object, would throw the overwrite error. *)
Theorem Booking_is_registered_once (g : Registry) :
  registry_wf g →
  let r := Booking g in
  (∃ M, r.1 = Normal M ∧ models r.2 !! "Booking" = Some M ∧
        (∀ M0, models g !! "Booking" = Some M0 → M = M0) ∧
        model "Booking" (schema M) r.2 = (Normal M, r.2)) ∧
  (∀ name, name ≠ "Booking" → models r.2 !! name = models g !! name) ∧
  (compiled r.2 ≤ S (compiled g))%nat ∧
  registry_wf r.2 ∧
  (let again := new_Schema BookingSchema r.2 in
   model "Booking" again.1 again.2
     = (Throw (PlainError (overwrite_model_message "Booking")), again.2)).
Proof.
  intros Hwf. cbn zeta.
  destruct (models g !! "Booking") as [M|] eqn:HM.
  - destruct (Booking_registered g M HM) as (H1 & H2 & H3).
    assert (Hs : schemas (Booking g).2 = S (schemas g)).
    { unfold Booking. simpl. by rewrite HM. }
    assert (Hwf' : registry_wf (Booking g).2).
    { intros name M' E. rewrite H2 in E. rewrite Hs.
      specialize (Hwf name M' E). lia. }
    split_and!.
    + exists M. split_and!.
      * done.
      * by rewrite H2.
      * by intros M0 [= <-].
      * unfold model. rewrite H2, HM. by rewrite decide_True.
    + intros name _. by rewrite H2.
    + lia.
    + exact Hwf'.
    + unfold model, new_Schema. simpl. rewrite H2, HM. simpl.
      rewrite decide_False; [done|].
      rewrite Hs. specialize (Hwf _ _ HM). lia.
  - destruct (Booking_unregistered g HM) as (H1 & H2 & H3 & H4). cbn zeta in *.
    assert (Hwf' : registry_wf (Booking g).2).
    { intros name M' E. rewrite H2 in E. rewrite H4.
      destruct (decide (name = "Booking")) as [->|Hn].
      - rewrite lookup_insert_eq in E. injection E as <-. simpl. lia.
      - rewrite lookup_insert_ne in E by done. specialize (Hwf name M' E). lia. }
    split_and!.
    + eexists. split_and!.
      * exact H1.
      * by rewrite H2, lookup_insert_eq.
      * done.
      * unfold model. rewrite H2, lookup_insert_eq. by rewrite decide_True.
    + intros name Hn. by rewrite H2, lookup_insert_ne.
    + lia.
    + exact Hwf'.
    + unfold model, new_Schema. simpl. rewrite H2, lookup_insert_eq. simpl.
      rewrite decide_False; [done|]. rewrite H4. lia.
Qed.

(** The module evaluated in a process that has compiled no model yet. *)
Lemma Booking_is_registered_once_witness :
  let r := Booking empty_registry in
  let again := new_Schema BookingSchema r.2 in
  registry_wf empty_registry ∧
  model "Booking" again.1 again.2
    = (Throw (PlainError (overwrite_model_message "Booking")), again.2).
Proof.
  cbn zeta.
  assert (H : registry_wf empty_registry).
  { intros name M E. simpl in E. by rewrite lookup_empty in E. }
  split; [exact H|].
  exact (proj2 (proj2 (proj2 (proj2 (Booking_is_registered_once empty_registry H))))).
Defined.

End RegistryGuard.

Section Reassignment.

Implicit Types (s : Store) (now : Date).

(** X16: moving a stored Booking to another Event is checked.  The save
    looks the new Event up; if it exists the record gets the new reference
    and a new [updatedAt], and keeps its email and its [createdAt]; if it
    does not, the save throws the reference error and the database is as it
    was. *)
Theorem reassigned_event_is_checked now s (id : ObjectId) (f : Fields) (e' : ObjectId) :
  bookings (db s) !! id = Some f →
  valid_record f →
  eventId f ≠ Some e' →
  let doc := assign_eventId e' (hydrate id f) in
  let r := save BookingSchema now doc s in
  if decide (e' ∈ events (db s)) then
    r.1 = Normal (saved (stamp now doc)) ∧
    log r.2 = log s ++ [FindEventById (Some e'); UpdateBooking id] ∧
    bookings (db r.2) !! id =
      Some {| eventId := Some e'; email := email f;
              createdAt := createdAt f; updatedAt := Some now |}
  else
    r.1 = Throw (PlainError (event_missing_message (Some e'))) ∧
    log r.2 = log s ++ [FindEventById (Some e')] ∧
    db r.2 = db s.
Proof.
  intros Hf [_ (v & Hm & Hok)] Hne. cbn zeta.
  unfold assign_eventId. simpl.
  rewrite (decide_False (P := eventId f = Some e')) by done.
  set (doc := {| _id := id |}).
  assert (Hv : validate BookingSchema doc = []).
  { unfold validate. simpl. rewrite Hm, validate_email_path, Hok. reflexivity. }
  rewrite (save_valid now doc s Hv). simpl.
  destruct (decide (e' ∈ events (db s))).
  - rewrite write_run. simpl. rewrite Hf. simpl.
    split_and!; [done | by rewrite <- app_assoc |].
    by rewrite lookup_insert_eq.
  - done.
Qed.

(** The stored Booking moved to an Event that does not exist. *)
Lemma reassigned_event_is_checked_witness :
  let s := {| db := {| events := {[ E1 ]}; bookings := {[ B1 := stored_booking ]} |};
              log := [] |} in
  let r := save BookingSchema 1700000600000%N
             (assign_eventId B1 (hydrate B1 stored_booking)) s in
  r.1 = Throw (PlainError (event_missing_message (Some B1))) ∧
  log r.2 = [FindEventById (Some B1)] ∧
  db r.2 = db s.
Proof.
  cbn zeta.
  pose proof (reassigned_event_is_checked 1700000600000%N
    {| db := {| events := {[ E1 ]}; bookings := {[ B1 := stored_booking ]} |};
       log := [] |} B1 stored_booking B1) as H.
  cbn zeta in H. rewrite (decide_False (P := B1 ∈ _)) in H.
  - apply H; [reflexivity | | by vm_compute].
    split; [by eexists|]. eexists. split; [reflexivity | by vm_compute].
  - simpl. intros Hin. apply elem_of_singleton in Hin. by vm_compute in Hin.
Defined.

End Reassignment.
